(** * Vex: an in-memory vector store (github.com/uzqw/vex)

    A shallow embedding of
      - [internal/vector/vector.go]   (vector arithmetic, the top-K heap),
      - [internal/storage/storage.go] (the sharded store and its search),
      - [internal/protocol/resp.go]   (the RESP codec and the vector parser),
    together with the properties the specification states about them.

    Conventions.
      - A Go [float32] is an IEEE-754 binary32 value, represented by the
        standard library's [spec_float] with [prec = 24] and [emax = 128];
        a [float64] uses [prec = 53] and [emax = 1024].  Every operation
        rounds to nearest, ties to even, one operation at a time.
      - A Go [string] is a sequence of bytes: the keys of the store are
        [string]s, what the codec reads and writes is a [list] of [ascii].
      - A Go [map] is a [gmap]; its iteration order is not fixed, so a
        scan of a map takes the order of iteration as an argument.
      - In [storage] an operation runs to its end before the next one
        starts.  The server runs one goroutine for each connection, so
        [interleaving] takes [Set] and [Clear] apart into the actions
        they perform on what the goroutines share, and runs them in the
        order a schedule gives. *)

From Stdlib Require Import ZArith Lia Bool Ascii String.
From Stdlib Require Import Floats.SpecFloat.
From stdpp Require Import base option list gmap strings fin_maps sorting.

Local Open Scope Z_scope.

(** ** float32 and float64 *)

Module F32.

Definition prec : Z := 24.
Definition emax : Z := 128.

Definition float32 : Type := spec_float.
Definition float64 : Type := spec_float.

Definition add : float32 -> float32 -> float32 := SFadd prec emax.
Definition mul : float32 -> float32 -> float32 := SFmul prec emax.
Definition sub : float32 -> float32 -> float32 := SFsub prec emax.
Definition div : float32 -> float32 -> float32 := SFdiv prec emax.
Definition eqb : float32 -> float32 -> bool := SFeqb.
Definition ltb : float32 -> float32 -> bool := SFltb.
Definition leb : float32 -> float32 -> bool := SFleb.

Definition zero : float32 := S754_zero false.
Definition one : float32 := Eval vm_compute in SFone prec emax.

(** [float64(x)] for a [float32] x: exact. *)
Definition to_float64 (x : float32) : float64 :=
  match x with
  | S754_finite s m e => binary_round 53 1024 s m e
  | _ => x
  end.

(** [float32(x)] for a [float64] x: rounds to nearest even. *)
Definition of_float64 (x : float64) : float32 :=
  match x with
  | S754_finite s m e => binary_round prec emax s m e
  | _ => x
  end.

(** [math.Sqrt] *)
Definition sqrt64 : float64 -> float64 := SFsqrt 53 1024.

Definition is_nan (x : float32) : bool :=
  match x with S754_nan => true | _ => false end.

Definition is_zero (x : float32) : bool :=
  match x with S754_zero _ => true | _ => false end.

(** A float32 literal [m * 2^e]. *)
Definition lit (m e : Z) : float32 := binary_normalize prec emax m e false.

End F32.

Import F32.

(** ** Errors and outcomes *)

(** The error values of the [vector] and [storage] packages.
    [ErrWrap msg e] is [fmt.Errorf(msg + ": %w", e)]; [ErrSetDimension]
    is the error [Storage.Set] builds with
    ["dimension mismatch: expected %d, got %d"]. *)
Inductive error : Type :=
  | ErrDimensionMismatch
  | ErrZeroVector
  | ErrSetDimension (expected got : Z)
  | ErrWrap (msg : string) (e : error).

(** What a call that may fail or panic does. *)
Inductive outcome (A : Type) : Type :=
  | Returns (a : A)
  | Fails (e : error)
  | Panics.
Arguments Returns {A} a.
Arguments Fails {A} e.
Arguments Panics {A}.

(** ** internal/vector/vector.go *)

Module vector.

(** [Magnitude]: the sum of squares is accumulated in float32, the
    square root is taken in float64 and converted back. *)
Definition Magnitude (v : list float32) : float32 :=
  let sum := fold_left (fun sum val => add sum (mul val val)) v zero in
  of_float64 (sqrt64 (to_float64 sum)).

Definition Normalize (v : list float32) : list float32 + error :=
  let magnitude := Magnitude v in
  if eqb magnitude zero then inr ErrZeroVector
  else inl (map (fun val => div val magnitude) v).

Definition DotProduct (a b : list float32) : float32 + error :=
  if negb (Nat.eqb (length a) (length b)) then inr ErrDimensionMismatch
  else inl (fold_left (fun sum ab => add sum (mul (fst ab) (snd ab)))
                      (zip a b) zero).

Definition CosineSimilarity (a b : list float32) : float32 + error :=
  if negb (Nat.eqb (length a) (length b)) then inr ErrDimensionMismatch
  else
    match DotProduct a b with
    | inr err => inr err
    | inl dotProd =>
        let magA := Magnitude a in
        let magB := Magnitude b in
        if eqb magA zero || eqb magB zero then inr ErrZeroVector
        else inl (div dotProd (mul magA magB))
    end.

Definition EuclideanDistance (a b : list float32) : float32 + error :=
  if negb (Nat.eqb (length a) (length b)) then inr ErrDimensionMismatch
  else
    let sum := fold_left (fun sum ab =>
                            let diff := sub (fst ab) (snd ab) in
                            add sum (mul diff diff))
                         (zip a b) zero in
    inl (of_float64 (sqrt64 (to_float64 sum))).

Record SearchResult : Type := mkSearchResult {
  Key : string;
  Similarity : float32;
  Distance : float32
}.

(** [TopKHeap] is a slice of results; these are the methods of its
    [heap.Interface].  An index outside the slice panics in Go; the
    functions of [container/heap] below call [Less] and [Swap] only
    with indices inside it, so here they are total: [Less] answers
    [false] and [Swap] changes nothing outside the slice. *)
Abbreviation TopKHeap := (list SearchResult).

Definition Len (h : TopKHeap) : nat := length h.

Definition Less (h : TopKHeap) (i j : nat) : bool :=
  match h !! i, h !! j with
  | Some x, Some y => ltb (Similarity x) (Similarity y)
  | _, _ => false
  end.

Definition Swap (h : TopKHeap) (i j : nat) : TopKHeap :=
  match h !! i, h !! j with
  | Some x, Some y => <[i := y]> (<[j := x]> h)
  | _, _ => h
  end.

Definition Push (h : TopKHeap) (x : SearchResult) : TopKHeap := h ++ [x].

(** [Pop] returns the last element and the slice without it; on an
    empty slice [old[n-1]] is out of range. *)
Definition Pop (h : TopKHeap) : option (SearchResult * TopKHeap) :=
  match last h with
  | Some x => Some (x, take (length h - 1)%nat h)
  | None => None
  end.

End vector.

(** ** container/heap, over [vector.TopKHeap] *)

Module heap.
Import vector.

(** [up]: the loop runs at most [j] times, since the parent index
    [(j-1)/2] is smaller than [j] whenever [j > 0]; for [j = 0] Go
    computes [(-1)/2 = 0] and stops, as the truncated subtraction does. *)
Fixpoint up_loop (fuel : nat) (h : TopKHeap) (j : nat) : TopKHeap :=
  match fuel with
  | O => h
  | S fuel' =>
      let i := ((j - 1) / 2)%nat in
      if Nat.eqb i j || negb (Less h j i) then h
      else up_loop fuel' (Swap h i j) i
  end.

Definition up (h : TopKHeap) (j : nat) : TopKHeap := up_loop (S j) h j.

(** [down]: returns the heap and the last position [i]; the loop runs
    at most [n - i0] times, since [i] grows at every round. *)
Fixpoint down_loop (fuel : nat) (h : TopKHeap) (i n : nat) : TopKHeap * nat :=
  match fuel with
  | O => (h, i)
  | S fuel' =>
      let j1 := (2 * i + 1)%nat in
      if Nat.leb n j1 then (h, i)
      else
        let j2 := (j1 + 1)%nat in
        let j := if Nat.ltb j2 n && Less h j2 j1 then j2 else j1 in
        if negb (Less h j i) then (h, i)
        else down_loop fuel' (Swap h i j) j n
  end.

Definition down (h : TopKHeap) (i0 n : nat) : TopKHeap * bool :=
  let '(h', i) := down_loop (S (n - i0)) h i0 n in
  (h', Nat.ltb i0 i).

(** [for i := n/2 - 1; i >= 0; i-- { down(h, i, n) }] *)
Fixpoint Init_loop (count : nat) (h : TopKHeap) (n : nat) : TopKHeap :=
  match count with
  | O => h
  | S i => Init_loop i (fst (down h i n)) n
  end.

Definition Init (h : TopKHeap) : TopKHeap :=
  let n := Len h in Init_loop (n / 2)%nat h n.

Definition Push (h : TopKHeap) (x : SearchResult) : TopKHeap :=
  let h := vector.Push h x in
  up h (Len h - 1)%nat.

(** [Pop] on an empty heap panics ([Swap(0, -1)]): [None]. *)
Definition Pop (h : TopKHeap) : option (SearchResult * TopKHeap) :=
  match Len h with
  | O => None
  | S n =>
      let h := Swap h 0%nat n in
      let h := fst (down h 0%nat n) in
      vector.Pop h
  end.

End heap.

(** ** hash/fnv: the 32-bit FNV-1a hash *)

Module fnv.

Definition offset32 : Z := 2166136261.
Definition prime32 : Z := 16777619.

Definition byte_val (c : ascii) : Z := Z.of_N (N_of_ascii c).

(** [hash ^= uint32(c); hash *= prime32], on 32 bits. *)
Definition step (hash : Z) (c : ascii) : Z :=
  (Z.lxor hash (byte_val c) * prime32) mod 2 ^ 32.

Definition Sum32a (data : list ascii) : Z := fold_left step data offset32.

End fnv.

(** ** internal/storage/storage.go *)

Module storage.
Import vector.

Definition ShardCount : nat := 32.

(** A shard is its [data] map (the lock has no sequential content). *)
Abbreviation shard := (gmap string (list float32)).

Record Storage : Type := mkStorage {
  shards : list shard;   (* [ShardCount]*shard *)
  dim : Z                (* atomic.Int32 *)
}.

Definition New : Storage :=
  {| shards := replicate ShardCount ∅; dim := 0 |}.

(** [getShard], as the index [h.Sum32() % ShardCount] into [shards]. *)
Definition getShard (key : string) : nat :=
  Z.to_nat (fnv.Sum32a (list_ascii_of_string key) mod Z.of_nat ShardCount).

Definition shardAt (s : Storage) (i : nat) : shard := shards s !!! i.

(** [int32(n)] for a Go [int] n. *)
Definition int32 (n : Z) : Z := (n + 2 ^ 31) mod 2 ^ 32 - 2 ^ 31.

(** [s.dim.CompareAndSwap(old, new)] *)
Definition CompareAndSwap (s : Storage) (old new : Z) : Storage :=
  if Z.eqb (dim s) old then {| shards := shards s; dim := new |} else s.

(** [shard.data[key] = vec] in the shard of index [i]. *)
Definition store (s : Storage) (i : nat) (key : string) (vec : list float32)
  : Storage :=
  {| shards := alter (fun data => <[key := vec]> data) i (shards s);
     dim := dim s |}.

Definition len (values : list float32) : Z := Z.of_nat (length values).

(** [Set] returns its error ([None] for [nil]) and the store it leaves. *)
Definition Set_ (key : string) (values : list float32) (s : Storage)
  : option error * Storage :=
  let dim0 := dim s in
  let s1 := if Z.eqb dim0 0 then CompareAndSwap s 0 (int32 (len values)) else s in
  let dim1 := if Z.eqb dim0 0 then dim s1 else dim0 in
  if negb (Z.eqb (len values) dim1) then
    (Some (ErrSetDimension dim1 (len values)), s1)
  else
    match Normalize values with
    | inr err => (Some (ErrWrap "failed to normalize vector" err), s1)
    | inl normalized => (None, store s1 (getShard key) key normalized)
    end.

Definition Get (key : string) (s : Storage) : option (list float32) :=
  shardAt s (getShard key) !! key.

Definition Delete (key : string) (s : Storage) : bool * Storage :=
  match shardAt s (getShard key) !! key with
  | Some _ =>
      (true, {| shards := alter (fun data => delete key data) (getShard key) (shards s);
                dim := dim s |})
  | None => (false, s)
  end.

Definition Count (s : Storage) : Z :=
  fold_left (fun count data => count + Z.of_nat (size data)) (shards s) 0.

Definition Clear (s : Storage) : Storage :=
  {| shards := map (fun _ => ∅) (shards s); dim := 0 |}.

Definition Dimension (s : Storage) : Z := dim s.

(** *** Search *)

Record shardResult : Type := mkShardResult {
  results : list SearchResult;
  err : option error
}.

(** The scan of one shard, over its entries in the order in which the
    [range] over the map yields them. *)
Fixpoint scan_loop (normalizedQuery : list float32)
    (entries : list (string * list float32)) (results : list SearchResult)
  : shardResult :=
  match entries with
  | [] => {| results := results; err := None |}
  | (key, vec) :: rest =>
      match DotProduct normalizedQuery vec with
      | inr e => {| results := []; err := Some e |}
      | inl similarity =>
          scan_loop normalizedQuery rest
            (results ++ [ {| Key := key; Similarity := similarity; Distance := zero |} ])
      end
  end.

Definition scan (normalizedQuery : list float32)
    (entries : list (string * list float32)) : shardResult :=
  scan_loop normalizedQuery entries [].

(** The inner loop of the merge: [None] is an index out of range,
    at the root read [( *h)[0]] or in [heap.Pop]. *)
Fixpoint merge_results (k : Z) (rs : list SearchResult) (h : TopKHeap)
  : option TopKHeap :=
  match rs with
  | [] => Some h
  | res :: rest =>
      if Z.ltb (Z.of_nat (Len h)) k then
        merge_results k rest (heap.Push h res)
      else
        match h !! 0%nat with
        | None => None
        | Some root =>
            if ltb (Similarity root) (Similarity res) then
              match heap.Pop h with
              | None => None
              | Some (_, h') => merge_results k rest (heap.Push h' res)
              end
            else merge_results k rest h
        end
  end.

(** The loop over the channel, in the order of arrival. *)
Fixpoint merge_channel (k : Z) (chan : list shardResult) (h : TopKHeap)
  : outcome TopKHeap :=
  match chan with
  | [] => Returns h
  | result :: rest =>
      match err result with
      | Some e => Fails e
      | None =>
          match merge_results k (results result) h with
          | None => Panics
          | Some h' => merge_channel k rest h'
          end
      end
  end.

(** [for i := len(results) - 1; i >= 0; i-- { results[i] = heap.Pop(h) }] *)
Fixpoint drain_loop (count : nat) (h : TopKHeap) (results : list SearchResult)
  : option (list SearchResult) :=
  match count with
  | O => Some results
  | S i =>
      match heap.Pop h with
      | None => None
      | Some (x, h') => drain_loop i h' (<[i := x]> results)
      end
  end.

Definition zeroResult : SearchResult :=
  {| Key := ""; Similarity := zero; Distance := zero |}.

Definition drain (h : TopKHeap) : option (list SearchResult) :=
  drain_loop (Len h) h (replicate (Len h) zeroResult).

(** [Search], given what the shards' scans iterate over, one list of
    entries for each shard, in the order in which the shards' results
    arrive on the channel. *)
Definition SearchOn (arrivals : list (list (string * list float32)))
    (query : list float32) (k : Z) : outcome (list SearchResult) :=
  match Normalize query with
  | inr e => Fails (ErrWrap "failed to normalize query" e)
  | inl normalizedQuery =>
      let chan := map (scan normalizedQuery) arrivals in
      match merge_channel k chan (heap.Init []) with
      | Fails e => Fails e
      | Panics => Panics
      | Returns h =>
          match drain h with
          | None => Panics
          | Some results => Returns results
          end
      end
  end.

(** The arrivals a search of [s] can see: every shard is iterated in
    some order, and the shards arrive in some order. *)
Definition arrivals_of (s : Storage)
    (arrivals : list (list (string * list float32))) : Prop :=
  ∃ scans : list (list (string * list float32)),
    Forall2 (fun (data : shard) entries => entries ≡ₚ map_to_list data)
            (shards s) scans
    ∧ arrivals ≡ₚ scans.

(** One run of [Search]: shards in index order, each in the order of
    [map_to_list]. *)
Definition Search (s : Storage) (query : list float32) (k : Z)
  : outcome (list SearchResult) :=
  SearchOn (map map_to_list (shards s)) query k.

(** *** Sequences of operations *)

Inductive op : Type :=
  | OpSet (key : string) (values : list float32)
  | OpGet (key : string)
  | OpDelete (key : string)
  | OpCount
  | OpSearch (query : list float32) (k : Z)
  | OpClear.

Definition exec (o : op) (s : Storage) : Storage :=
  match o with
  | OpSet key values => snd (Set_ key values s)
  | OpDelete key => snd (Delete key s)
  | OpClear => Clear s
  | OpGet _ | OpCount | OpSearch _ _ => s
  end.

Inductive reachable : Storage -> Prop :=
  | reach_New : reachable New
  | reach_exec o s : reachable s -> reachable (exec o s).

Definition stored (s : Storage) (key : string) (vec : list float32) : Prop :=
  ∃ data : shard, data ∈ shards s ∧ data !! key = Some vec.

(** What every sequence of operations keeps: the array of shards has
    its [ShardCount] entries, and wherever a vector is stored the
    dimension is fixed and is the length of that vector. *)
Definition store_inv (s : Storage) : Prop :=
  length (shards s) = ShardCount
  ∧ ∀ key vec, stored s key vec -> len vec = dim s ∧ dim s ≠ 0.

(** All the components are zero, of either sign. *)
Definition all_zero (values : list float32) : Prop :=
  Forall (fun x => is_zero x = true) values.

(** The vector has a magnitude other than zero: [Normalize] accepts it. *)
Definition nonzero (values : list float32) : Prop :=
  eqb (Magnitude values) zero = false.

End storage.


(** ** internal/protocol/resp.go *)

Module protocol.

(** A Go string, as its bytes. *)
Definition bytes (s : string) : list ascii := list_ascii_of_string s.

Definition CR : ascii := "013"%char.
Definition LF : ascii := "010"%char.
Definition CRLF : list ascii := [CR; LF].

(** *** strconv.Itoa and strconv.Atoi, for a 64-bit [int] *)

Definition digit (d : Z) : ascii := ascii_of_N (Z.to_N (48 + d)).

Fixpoint formatBits (fuel : nat) (n : Z) (acc : list ascii) : list ascii :=
  match fuel with
  | O => acc
  | S fuel' =>
      let acc' := digit (n mod 10) :: acc in
      if Z.ltb n 10 then acc' else formatBits fuel' (n / 10) acc'
  end.

Definition Itoa (n : Z) : list ascii :=
  if Z.ltb n 0 then "-"%char :: formatBits (S (Z.to_nat (Z.log2 (- n)))) (- n) []
  else formatBits (S (Z.to_nat (Z.log2 n))) n [].

Fixpoint parseDigits (s : list ascii) (n : Z) : option Z :=
  match s with
  | [] => Some n
  | ch :: rest =>
      let d := fnv.byte_val ch - 48 in
      if Z.leb 0 d && Z.leb d 9 then parseDigits rest (n * 10 + d) else None
  end.

(** [Atoi]: an optional sign, then at least one digit and only digits;
    a value outside the range of [int] is an error as well. *)
Definition Atoi (s : list ascii) : option Z :=
  match s with
  | [] => None
  | c :: rest =>
      let neg := Ascii.eqb c "-" in
      let digits := if neg || Ascii.eqb c "+" then rest else s in
      match digits with
      | [] => None
      | _ =>
          match parseDigits digits 0 with
          | None => None
          | Some n =>
              let v := if neg then - n else n in
              if Z.leb (- 2 ^ 63) v && Z.ltb v (2 ^ 63) then Some v else None
          end
      end
  end.

(** *** A state and error monad, for the reader and the writer *)

Definition M (S E A : Type) : Type := S -> (A + E) * S.

Definition ret {S E A} (a : A) : M S E A := fun s => (inl a, s).
Definition fail {S E A} (e : E) : M S E A := fun s => (inr e, s).
Definition bind {S E A B} (c : M S E A) (k : A -> M S E B) : M S E B :=
  fun s => match c s with
           | (inl a, s') => k a s'
           | (inr e, s') => (inr e, s')
           end.

Notation "'let*' x ':=' c 'in' k" := (bind c (fun x => k))
  (at level 10, x name, c at level 200, k at level 200).

(** *** RESPReader *)

Inductive protocol_detail : Type :=
  | UnexpectedTypeByte (typ : ascii)
  | LineNotCRLF
  | MissingBulkCRLF.

Inductive length_detail : Type :=
  | InvalidArrayLength (line : list ascii)
  | InvalidBulkLength (line : list ascii)
  | NegativeBulkLength (length : Z).

(** [io.EOF], [io.ErrUnexpectedEOF], [bufio.ErrInvalidUnreadByte], the
    two sentinel errors of the package wrapped with their detail, and
    [errors.New(line)] for an error reply. *)
Inductive read_error : Type :=
  | EOF
  | UnexpectedEOF
  | InvalidUnreadByte
  | ErrInvalidProtocol (d : protocol_detail)
  | ErrInvalidLength (d : length_detail)
  | ErrorsNew (line : list ascii).

(** The [bufio.Reader]: what is left of the stream, and the last byte
    read, if it can be unread. *)
Record RESPReader : Type := mkReader {
  input : list ascii;
  lastByte : option ascii
}.

Definition NewRESPReader (stream : list ascii) : RESPReader :=
  {| input := stream; lastByte := None |}.

Abbreviation Rd := (M RESPReader read_error).

Definition ReadByte : Rd ascii := fun r =>
  match input r with
  | [] => (inr EOF, r)
  | c :: rest => (inl c, {| input := rest; lastByte := Some c |})
  end.

Definition UnreadByte : Rd unit := fun r =>
  match lastByte r with
  | Some c => (inl tt, {| input := c :: input r; lastByte := None |})
  | None => (inr InvalidUnreadByte, r)
  end.

(** The bytes up to and with the first [delim], and the rest. *)
Fixpoint cut (delim : ascii) (s : list ascii) : option (list ascii * list ascii) :=
  match s with
  | [] => None
  | c :: rest =>
      if Ascii.eqb c delim then Some ([c], rest)
      else match cut delim rest with
           | Some (line, rest') => Some (c :: line, rest')
           | None => None
           end
  end.

Definition ReadString (delim : ascii) : Rd (list ascii) := fun r =>
  match cut delim (input r) with
  | Some (line, rest) => (inl line, {| input := rest; lastByte := last line |})
  | None => (inr EOF, {| input := []; lastByte := last (input r) |})
  end.

(** [io.ReadFull(r.reader, buf)] with [n = len(buf)]. *)
Definition ReadFull (n : nat) : Rd (list ascii) := fun r =>
  if Nat.leb n (length (input r)) then
    (inl (take n (input r)),
     {| input := drop n (input r);
        lastByte := match n with O => lastByte r | _ => last (take n (input r)) end |})
  else
    (inr (match input r with [] => EOF | _ => UnexpectedEOF end),
     {| input := []; lastByte := match input r with [] => lastByte r | _ => last (input r) end |}).

Definition readLine : Rd (list ascii) :=
  let* line := ReadString LF in
  if Nat.ltb (length line) 2
     || negb (bool_decide (line !! (length line - 2)%nat = Some CR))
  then fail (ErrInvalidProtocol LineNotCRLF)
  else ret (take (length line - 2)%nat line).

Definition readBulkString : Rd (list ascii) :=
  let* line := readLine in
  match Atoi line with
  | None => fail (ErrInvalidLength (InvalidBulkLength line))
  | Some length =>
      if Z.eqb length (-1) then ret []
      else if Z.ltb length 0 then fail (ErrInvalidLength (NegativeBulkLength length))
      else
        let* buf := ReadFull (Z.to_nat (length + 2)) in
        if negb (bool_decide (buf !! Z.to_nat length = Some CR))
           || negb (bool_decide (buf !! Z.to_nat (length + 1) = Some LF))
        then fail (ErrInvalidProtocol MissingBulkCRLF)
        else ret (take (Z.to_nat length) buf)
  end.

Definition readValue : Rd (list ascii) :=
  let* typ := ReadByte in
  if Ascii.eqb typ "$" then readBulkString
  else if Ascii.eqb typ "+" then readLine
  else if Ascii.eqb typ "-" then
    let* line := readLine in fail (ErrorsNew line)
  else if Ascii.eqb typ ":" then readLine
  else fail (ErrInvalidProtocol (UnexpectedTypeByte typ)).

(** [for i := 0; i < count; i++ { ...; result[i] = val }], with
    [remaining = count - i]. *)
Fixpoint readArray_loop (remaining i : nat) (result : list (list ascii))
  : Rd (list (list ascii)) :=
  match remaining with
  | O => ret result
  | S remaining' =>
      let* val := readValue in
      readArray_loop remaining' (S i) (<[i := val]> result)
  end.

Definition readArray : Rd (list (list ascii)) :=
  let* line := readLine in
  match Atoi line with
  | None => fail (ErrInvalidLength (InvalidArrayLength line))
  | Some count =>
      if Z.ltb count 0 then fail (ErrInvalidLength (InvalidArrayLength line))
      else readArray_loop (Z.to_nat count) 0 (replicate (Z.to_nat count) [])
  end.

Definition ReadCommand : Rd (list (list ascii)) :=
  let* typ := ReadByte in
  if Ascii.eqb typ "*" then readArray
  else if Ascii.eqb typ "+" || Ascii.eqb typ "-" || Ascii.eqb typ ":"
          || Ascii.eqb typ "$" then
    let* _ := UnreadByte in
    let* val := readValue in
    ret [val]
  else fail (ErrInvalidProtocol (UnexpectedTypeByte typ)).

(** *** RESPWriter *)

(** The [bufio.Writer]: the bytes still in its buffer and the bytes
    already handed to the transport.  The transport is taken to accept
    every write, so no write fails; [write_error] has no value. *)
Record RESPWriter : Type := mkWriter {
  pending : list ascii;
  sent : list ascii
}.

Inductive write_error : Type := .

Definition NewRESPWriter : RESPWriter := {| pending := []; sent := [] |}.

Abbreviation Wr := (M RESPWriter write_error).

Definition WriteString (s : list ascii) : Wr unit := fun w =>
  (inl tt, {| pending := pending w ++ s; sent := sent w |}).

Definition WriteSimpleString (s : list ascii) : Wr unit :=
  let* _ := WriteString (bytes "+") in
  let* _ := WriteString s in
  WriteString CRLF.

Definition WriteError (msg : list ascii) : Wr unit :=
  let* _ := WriteString (bytes "-ERR ") in
  let* _ := WriteString msg in
  WriteString CRLF.

Definition WriteBulkString (s : list ascii) : Wr unit :=
  let length := Z.of_nat (length s) in
  let* _ := WriteString (bytes "$") in
  let* _ := WriteString (Itoa length) in
  let* _ := WriteString CRLF in
  let* _ := WriteString s in
  WriteString CRLF.

Fixpoint WriteArray_loop (elements : list (list ascii)) : Wr unit :=
  match elements with
  | [] => ret tt
  | elem :: rest => let* _ := WriteBulkString elem in WriteArray_loop rest
  end.

Definition WriteArray (elements : list (list ascii)) : Wr unit :=
  let* _ := WriteString (bytes "*") in
  let* _ := WriteString (Itoa (Z.of_nat (length elements))) in
  let* _ := WriteString CRLF in
  WriteArray_loop elements.

Definition WriteInteger (n : Z) : Wr unit :=
  let* _ := WriteString (bytes ":") in
  let* _ := WriteString (Itoa n) in
  WriteString CRLF.

Definition Flush : Wr unit := fun w =>
  (inl tt, {| pending := []; sent := sent w ++ pending w |}).

(** What the transport has received once [c] has run on a new writer
    and the writer has been flushed. *)
Definition written (c : Wr unit) : list ascii :=
  sent (snd ((let* _ := c in Flush) NewRESPWriter)).

(** *** The frames on the wire *)

(** [$<length>\r\n<bytes>\r\n] *)
Definition bulk (s : list ascii) : list ascii :=
  bytes "$" ++ Itoa (Z.of_nat (length s)) ++ CRLF ++ s ++ CRLF.

(** [*<count>\r\n] and the elements, each a bulk string. *)
Definition array (elements : list (list ascii)) : list ascii :=
  bytes "*" ++ Itoa (Z.of_nat (length elements)) ++ CRLF
  ++ concat (map bulk elements).

(** A line of text: no line feed in it. *)
Definition line_text (text : list ascii) : Prop := Forall (fun c => c ≠ LF) text.

(** A length that a Go [int] holds. *)
Definition int_length {A : Type} (s : list A) : Prop :=
  Z.of_nat (length s) < 2 ^ 63.

Definition is_digit (c : ascii) : Prop :=
  0 ≤ fnv.byte_val c - 48 ≤ 9.

(** *** FastVectorParser *)

(** [strings.TrimSpace] removes, at both ends, the characters that
    [unicode.IsSpace] accepts.  [whiteSpace] lists their UTF-8
    encodings: tab, LF, VT, FF, CR, space, U+0085, U+00A0, U+1680,
    U+2000 to U+200A, U+2028, U+2029, U+202F, U+205F and U+3000. *)
Definition whiteSpace : list (list ascii) :=
  map (map ascii_of_N)
    [ [0x09]; [0x0A]; [0x0B]; [0x0C]; [0x0D]; [0x20];
      [0xC2; 0x85]; [0xC2; 0xA0];
      [0xE1; 0x9A; 0x80];
      [0xE2; 0x80; 0x80]; [0xE2; 0x80; 0x81]; [0xE2; 0x80; 0x82];
      [0xE2; 0x80; 0x83]; [0xE2; 0x80; 0x84]; [0xE2; 0x80; 0x85];
      [0xE2; 0x80; 0x86]; [0xE2; 0x80; 0x87]; [0xE2; 0x80; 0x88];
      [0xE2; 0x80; 0x89]; [0xE2; 0x80; 0x8A];
      [0xE2; 0x80; 0xA8]; [0xE2; 0x80; 0xA9]; [0xE2; 0x80; 0xAF];
      [0xE2; 0x81; 0x9F];
      [0xE3; 0x80; 0x80] ]%N.

Fixpoint hasPrefix (p s : list ascii) : bool :=
  match p, s with
  | [], _ => true
  | a :: p', b :: s' => Ascii.eqb a b && hasPrefix p' s'
  | _ :: _, [] => false
  end.

(** The encoding in [table] that [s] starts with, if any. *)
Definition leading (table : list (list ascii)) (s : list ascii)
  : option (list ascii) :=
  List.find (fun p => hasPrefix p s) table.

(** Removes leading encodings of [table] for as long as there is one;
    every round removes a byte at least, so [length s] rounds are enough. *)
Fixpoint strip (table : list (list ascii)) (fuel : nat) (s : list ascii)
  : list ascii :=
  match fuel with
  | O => s
  | S fuel' =>
      match leading table s with
      | Some p => strip table fuel' (drop (length p) s)
      | None => s
      end
  end.

Definition trim (table : list (list ascii)) (s : list ascii) : list ascii :=
  strip table (length s) s.

Definition TrimLeft (s : list ascii) : list ascii := trim whiteSpace s.

(** At the right end the last character is decoded: the same encodings,
    read backwards. *)
Definition TrimRight (s : list ascii) : list ascii :=
  reverse (trim (map reverse whiteSpace) (reverse s)).

Definition TrimSpace (s : list ascii) : list ascii := TrimRight (TrimLeft s).

(** [strings.Split(s, ",")] *)
Fixpoint Split (s : list ascii) : list (list ascii) :=
  match s with
  | [] => [[]]
  | c :: rest =>
      if Ascii.eqb c "," then [] :: Split rest
      else match Split rest with
           | part :: parts => (c :: part) :: parts
           | [] => [[c]]
           end
  end.

(** A run of encodings of [table], one after the other. *)
Inductive run (table : list (list ascii)) : list ascii -> Prop :=
  | run_nil : run table []
  | run_cons p a : p ∈ table -> run table a -> run table (p ++ a).

(** What the proofs use of a table of encodings: none is empty, none
    starts another one, and none holds a comma. *)
Definition table_ok (table : list (list ascii)) : bool :=
  forallb (fun p => negb (Nat.eqb (length p) 0)) table
  && forallb (fun p => forallb (fun p' =>
        negb (hasPrefix p p') || bool_decide (p = p')) table) table
  && forallb (fun p => forallb (fun c => negb (Ascii.eqb c ",")) p) table.

(** No byte that starts an encoding of [table] is found further inside
    an encoding of it. *)
Definition heads_apart (table : list (list ascii)) : bool :=
  forallb (fun p => forallb (fun p' =>
      match p with
      | [] => true
      | c :: _ => forallb (fun c' => negb (Ascii.eqb c c')) (tail p')
      end) table) table.

Inductive parse_error : Type :=
  | ErrBrackets                       (* "vector must be enclosed in brackets" *)
  | ErrElement (part : list ascii).   (* "invalid vector element '%s': %w" *)

Section Parser.

(** [strconv.ParseFloat(part, 32)] followed by the conversion to
    float32; [None] when it returns an error. *)
Variable ParseFloat32 : list ascii -> option float32.

Fixpoint parse_loop (parts : list (list ascii)) (result : list float32)
  : list float32 + parse_error :=
  match parts with
  | [] => inl result
  | part :: rest =>
      let part := TrimSpace part in
      match part with
      | [] => parse_loop rest result
      | _ =>
          match ParseFloat32 part with
          | None => inr (ErrElement part)
          | Some val => parse_loop rest (result ++ [val])
          end
      end
  end.

Definition FastVectorParser (s : list ascii) : list float32 + parse_error :=
  let s := TrimSpace s in
  if Nat.ltb (length s) 2
     || negb (bool_decide (s !! 0%nat = Some "["%char))
     || negb (bool_decide (s !! (length s - 1)%nat = Some "]"%char))
  then inr ErrBrackets
  else
    let s := take (length s - 2)%nat (drop 1 s) in
    let s := TrimSpace s in
    match s with
    | [] => inl []
    | _ => parse_loop (Split s) []
    end.

(** The parser as the specification words it: the trimmed input starts
    with an opening and ends with a closing bracket; what is between
    them is split on commas, every piece is trimmed, the empty pieces
    are dropped and the others are parsed in order, the first piece
    that is no number failing the parse. *)
Definition bracketed (t : list ascii) : bool :=
  bool_decide (head t = Some "["%char) && bool_decide (last t = Some "]"%char).

Definition interior (t : list ascii) : list ascii := removelast (tail t).

Definition pieces (t : list ascii) : list (list ascii) :=
  List.filter (fun p => negb (Nat.eqb (length p) 0))
              (map TrimSpace (Split (interior t))).

Fixpoint parse_all (ps : list (list ascii)) : list float32 + parse_error :=
  match ps with
  | [] => inl []
  | p :: rest =>
      match ParseFloat32 p with
      | None => inr (ErrElement p)
      | Some v =>
          match parse_all rest with
          | inl vs => inl (v :: vs)
          | inr e => inr e
          end
      end
  end.

Definition FastVectorParser_spec (s : list ascii) : list float32 + parse_error :=
  let t := TrimSpace s in
  if bracketed t then parse_all (pieces t) else inr ErrBrackets.

End Parser.

End protocol.

(** ** Predicates of the statements and of their proofs *)

Module order.
Import vector.

(** [x <= y] on similarities, as the heap sees it: [not Less(y, x)]. *)
Definition sle (x y : SearchResult) : Prop :=
  ltb (Similarity y) (Similarity x) = false.

(** The similarity is a number. *)
Definition scored (x : SearchResult) : Prop := is_nan (Similarity x) = false.

Definition parent (c : nat) : nat := ((c - 1) / 2)%nat.

(** The first [n] elements of [h] are a min-heap. *)
Definition heap_upto (n : nat) (h : TopKHeap) : Prop :=
  ∀ c x y, (0 < c < n)%nat ->
    h !! c = Some x -> h !! parent c = Some y -> sle y x.

Definition heap_inv (h : TopKHeap) : Prop := heap_upto (length h) h.

(** A heap but for the element at [j], which may be below its parent. *)
Definition up_inv (h : TopKHeap) (j : nat) : Prop :=
  (∀ c x y, (0 < c)%nat -> c ≠ j ->
     h !! c = Some x -> h !! parent c = Some y -> sle y x)
  ∧ (∀ c x y, (0 < j)%nat -> (0 < c)%nat -> parent c = j ->
       h !! c = Some x -> h !! parent j = Some y -> sle y x).

(** A heap on the first [n] elements but for the element at [i], which
    may be above its children. *)
Definition down_inv (h : TopKHeap) (i n : nat) : Prop :=
  (∀ c x y, (0 < c < n)%nat -> parent c ≠ i ->
     h !! c = Some x -> h !! parent c = Some y -> sle y x)
  ∧ (∀ c x y, (0 < i)%nat -> (0 < c < n)%nat -> parent c = i ->
       h !! c = Some x -> h !! parent i = Some y -> sle y x).

(** The child that [down] compares with [i]. *)
Definition child (h : TopKHeap) (i n : nat) : nat :=
  if Nat.ltb (2 * i + 1 + 1) n && Less h (2 * i + 1 + 1) (2 * i + 1)
  then (2 * i + 1 + 1)%nat else (2 * i + 1)%nat.

(** What [DotProduct] computes on two vectors of one length, and the
    candidate that the scan of a shard builds from an entry. *)
Definition dot (a b : list float32) : float32 :=
  fold_left (fun sum ab => add sum (mul (fst ab) (snd ab))) (zip a b) zero.

Definition candidate (normalizedQuery : list float32)
    (entry : string * list float32) : SearchResult :=
  {| Key := fst entry;
     Similarity := dot normalizedQuery (snd entry);
     Distance := zero |}.

(** The entry has as many components as the query. *)
Definition fits (query : list float32) (entry : string * list float32) : Prop :=
  length (snd entry) = length query.

(** Every similarity that a search of [s] for [query] computes is a
    number. *)
Definition numeric_scores (s : storage.Storage) (query : list float32) : Prop :=
  ∀ normalizedQuery key vec,
    Normalize query = inl normalizedQuery -> storage.stored s key vec ->
    is_nan (dot normalizedQuery vec) = false.

(** Similarities never grow along the list. *)
Definition descending (rs : list SearchResult) : Prop :=
  ∀ i j x y, (i ≤ j)%nat -> rs !! i = Some x -> rs !! j = Some y ->
    leb (Similarity y) (Similarity x) = true.

(** Similarities shrink along the list. *)
Definition strictly_descending (rs : list SearchResult) : Prop :=
  ∀ i j x y, (i < j)%nat -> rs !! i = Some x -> rs !! j = Some y ->
    ltb (Similarity y) (Similarity x) = true.

End order.

(** ** Sample stores *)

Module example.
Import storage.

(** The store after [Set("k1", [1, 0, 0])]. *)
Definition k1 : Storage := exec (OpSet "k1" [lit 1 0; lit 0 0; lit 0 0]) New.

(** The store after [Set("a", [1, 0])] and [Set("b", [1, 0])]. *)
Definition tied : Storage :=
  exec (OpSet "b" [lit 1 0; lit 0 0]) (exec (OpSet "a" [lit 1 0; lit 0 0]) New).

(** [n / 10] as a float32, for literals such as [0.9]. *)
Definition tenths (n : Z) : float32 := div (lit n 0) (lit 10 0).

(** The store of [TestStorageSearch]: vec1 = [1, 0, 0],
    vec2 = [0.9, 0.1, 0], vec3 = [0, 1, 0], vec4 = [0, 0, 1]. *)
Definition four : Storage :=
  exec (OpSet "vec4" [lit 0 0; lit 0 0; lit 1 0])
    (exec (OpSet "vec3" [lit 0 0; lit 1 0; lit 0 0])
       (exec (OpSet "vec2" [tenths 9; tenths 1; lit 0 0])
          (exec (OpSet "vec1" [lit 1 0; lit 0 0; lit 0 0]) New))).

(** The store after [Set("n", [+Inf, 1])]. *)
Definition infinite : Storage :=
  exec (OpSet "n" [S754_infinity false; lit 1 0]) New.

(** A parser of the decimal integers, in the place of
    [strconv.ParseFloat] where an example needs one. *)
Definition ParseInteger (part : list ascii) : option float32 :=
  match protocol.Atoi part with
  | Some n => Some (lit n 0)
  | None => None
  end.

End example.

(** ** Set and Clear, one action at a time *)

Module interleaving.
Import vector storage.

(** A goroutine inside [Set] or [Clear], or back from it.  What the
    goroutines share is [dim], an [atomic.Int32], and the [data] of
    every shard, guarded by the shard's lock: an action is one atomic
    operation on [dim] or one critical section of a shard.  What [Set]
    does between two actions, the test of the length and [Normalize],
    reads its own variables only and goes with the action before it. *)
Inductive goroutine : Type :=
  | SetLoad (key : string) (values : list float32)
      (* at [dim := int(s.dim.Load())] *)
  | SetCompareAndSwap (key : string) (values : list float32)
      (* at [s.dim.CompareAndSwap(0, int32(len(values)))] *)
  | SetReload (key : string) (values : list float32)
      (* at [dim = int(s.dim.Load())] *)
  | SetLock (key : string) (normalized : list float32)
      (* at [shard.mu.Lock()], before [shard.data[key] = normalized] *)
  | ClearLoop (i : nat)
      (* at [i < ShardCount], the loop of [Clear] *)
  | Returned (err : option error).

(** [Set] from the test [len(values) != dim] on, with the value of the
    local variable [dim]: it returns an error, or goes on to the lock. *)
Definition SetCheck (key : string) (values : list float32) (dim : Z)
  : goroutine :=
  if negb (Z.eqb (len values) dim) then
    Returned (Some (ErrSetDimension dim (len values)))
  else
    match Normalize values with
    | inr err => Returned (Some (ErrWrap "failed to normalize vector" err))
    | inl normalized => SetLock key normalized
    end.

(** The next action of a goroutine. *)
Definition step (g : goroutine) (s : Storage) : goroutine * Storage :=
  match g with
  | SetLoad key values =>
      let dim := dim s in
      if Z.eqb dim 0 then (SetCompareAndSwap key values, s)
      else (SetCheck key values dim, s)
  | SetCompareAndSwap key values =>
      (SetReload key values, CompareAndSwap s 0 (int32 (len values)))
  | SetReload key values => (SetCheck key values (dim s), s)
  | SetLock key normalized =>
      (Returned None, store s (getShard key) key normalized)
  | ClearLoop i =>
      if Nat.ltb i ShardCount then
        (ClearLoop (S i), {| shards := <[i := ∅]> (shards s); dim := dim s |})
      else
        (Returned None, {| shards := shards s; dim := 0 |})
  | Returned err => (g, s)
  end.

(** The goroutines of the connections, and the store they share. *)
Definition system : Type := list goroutine * Storage.

(** The goroutine of index [i] takes its next action. *)
Definition turn (c : system) (i : nat) : system :=
  match c.1 !! i with
  | Some g => let (g', s') := step g c.2 in (<[i := g']> c.1, s')
  | None => c
  end.

(** A schedule names the goroutine of every turn. *)
Definition run (schedule : list nat) (c : system) : system :=
  fold_left turn schedule c.

(** [n] actions of one goroutine, with no other in between. *)
Fixpoint alone (n : nat) (g : goroutine) (s : Storage) : goroutine * Storage :=
  match n with
  | O => (g, s)
  | S n' => let (g', s') := step g s in alone n' g' s'
  end.

(** What a goroutine inside [Set] has tested, against the dimension
    [d] of the store: at the lock, its vector has the length [d], which
    is not 0. *)
Definition tested (d : Z) (g : goroutine) : Prop :=
  match g with
  | SetLock _ normalized => len normalized = d ∧ d ≠ 0
  | ClearLoop _ => False
  | SetLoad _ _ | SetCompareAndSwap _ _ | SetReload _ _ | Returned _ => True
  end.

(** No goroutine is inside [Clear], the store has its invariant, and
    the goroutines at a lock have tested the dimension it has now. *)
Definition Set_inv (c : system) : Prop :=
  store_inv c.2 ∧ Forall (tested (dim c.2)) c.1.

(** The actions of one call of [Set], at most, and of one call of
    [Clear]. *)
Definition SetActions : nat := 4.
Definition ClearActions : nat := S ShardCount.

(** One connection sends [VSET b [1,0,0]]; another sends [CLEAR] and
    then [VSET c [1,0]], which starts when its [Clear] has returned. *)
Definition racing : list goroutine :=
  [ SetLoad "b" [lit 1 0; lit 0 0; lit 0 0];
    ClearLoop 0;
    SetLoad "c" [lit 1 0; lit 0 0] ].

(** [Set("b", ...)] loads the dimension, passes its test and its
    normalization, and is at the lock of its shard; [Clear], and then
    [Set("c", ...)], run to their end; [Set("b", ...)] takes the lock
    and writes. *)
Definition late_write : list nat :=
  [0%nat] ++ replicate ClearActions 1%nat ++ replicate SetActions 2%nat ++ [0%nat].

(** [Clear] has emptied every shard and is at [s.dim.Store(0)];
    [Set("b", ...)] runs from its start to its end; [Clear] stores the
    0; [Set("c", ...)] runs. *)
Definition write_in_Clear : list nat :=
  replicate ShardCount 1%nat ++ replicate SetActions 0%nat ++ [1%nat]
  ++ replicate SetActions 2%nat.

End interleaving.

(** * Properties *)

(** ** The order of float32 values *)

Section FloatOrder.

Lemma SFcompare_nan_free (x y : float32) :
  is_nan x = false -> is_nan y = false -> ∃ c, SFcompare x y = Some c.
Proof.
  destruct x as [sx|sx| |sx mx ex], y as [sy|sy| |sy my ey];
    simpl; intros Hx Hy; try discriminate; eauto.
Qed.

Lemma SFcompare_antisym (x y : float32) :
  SFcompare y x = CompOpp <$> SFcompare x y.
Proof.
  destruct x as [sx|sx| |sx mx ex], y as [sy|sy| |sy my ey]; simpl;
    try reflexivity;
    repeat match goal with s : bool |- _ => destruct s end;
    simpl; try reflexivity.
  - change (Pos.compare_cont Eq) with Pos.compare.
    rewrite (Z.compare_antisym ey ex), (Pos.compare_antisym my mx).
    destruct (ey ?= ex), (my ?= mx)%positive; reflexivity.
  - change (Pos.compare_cont Eq) with Pos.compare.
    rewrite (Z.compare_antisym ey ex), (Pos.compare_antisym my mx).
    destruct (ey ?= ex), (my ?= mx)%positive; reflexivity.
Qed.

(** [x <= y] and [y <= z] give [x <= z], away from NaN. *)
Lemma SFcompare_le_trans (x y z : float32) (c1 c2 : comparison) :
  SFcompare x y = Some c1 -> c1 ≠ Gt ->
  SFcompare y z = Some c2 -> c2 ≠ Gt ->
  ∃ c3, SFcompare x z = Some c3 ∧ c3 ≠ Gt.
Proof.
  destruct x as [sx|sx| |sx mx ex], y as [sy|sy| |sy my ey],
    z as [sz|sz| |sz mz ez]; simpl; try discriminate;
    repeat match goal with s : bool |- _ => destruct s end;
    simpl; intros H1 N1 H2 N2;
    repeat match goal with
      | H : Some _ = Some _ |- _ => injection H as <-
      end;
    try congruence; try (eexists; split; [reflexivity | congruence]).
  - change (Pos.compare_cont Eq) with Pos.compare in *.
    eexists; split; [reflexivity|].
    destruct (Z.compare_spec ex ey), (Z.compare_spec ey ez),
      (Z.compare_spec ex ez); try lia; try congruence; subst; simpl in *.
    destruct (Pos.compare_spec mx my), (Pos.compare_spec my mz),
      (Pos.compare_spec mx mz); simpl in *; try lia; congruence.
  - change (Pos.compare_cont Eq) with Pos.compare in *.
    eexists; split; [reflexivity|].
    destruct (Z.compare_spec ex ey), (Z.compare_spec ey ez),
      (Z.compare_spec ex ez); try lia; try congruence; subst; simpl in *.
    destruct (Pos.compare_spec mx my), (Pos.compare_spec my mz),
      (Pos.compare_spec mx mz); simpl in *; try lia; congruence.
Qed.

Lemma ltb_asym (x y : float32) : ltb x y = true -> ltb y x = false.
Proof.
  unfold ltb, SFltb. rewrite (SFcompare_antisym x y).
  destruct (SFcompare x y) as [[]|]; simpl; congruence.
Qed.

Lemma ltb_irrefl (x : float32) : ltb x x = false.
Proof. destruct (ltb x x) eqn:E; [|done]. by rewrite (ltb_asym _ _ E) in E. Qed.

(** Away from NaN, [not (y < x)] is [x <= y]. *)
Lemma not_ltb_leb (x y : float32) :
  is_nan x = false -> is_nan y = false ->
  ltb y x = false <-> leb x y = true.
Proof.
  intros Hx Hy. unfold ltb, leb, SFltb, SFleb.
  rewrite (SFcompare_antisym x y).
  destruct (SFcompare_nan_free x y Hx Hy) as [c ->].
  destruct c; simpl; split; congruence.
Qed.

Lemma leb_trans (x y z : float32) :
  leb x y = true -> leb y z = true -> leb x z = true.
Proof.
  unfold leb, SFleb.
  destruct (SFcompare x y) as [c1|] eqn:E1; [|discriminate].
  destruct (SFcompare y z) as [c2|] eqn:E2; [|destruct c1; discriminate].
  intros H1 H2.
  destruct (SFcompare_le_trans x y z c1 c2 E1) as (c3 & -> & N3); auto.
  - destruct c1; congruence.
  - destruct c2; congruence.
  - destruct c3; congruence.
Qed.

End FloatOrder.

(** ** container/heap keeps a min-heap *)

Section HeapProperties.
Import vector order.

Lemma parent_cases (c : nat) :
  (0 < c)%nat -> (c = 2 * parent c + 1 ∨ c = 2 * parent c + 2)%nat.
Proof.
  intros Hc. unfold parent.
  pose proof (Nat.div_mod_eq (c - 1) 2).
  pose proof (Nat.mod_upper_bound (c - 1) 2). lia.
Qed.

Lemma parent_lt (c : nat) : (0 < c)%nat -> (parent c < c)%nat.
Proof. intros Hc. destruct (parent_cases c Hc); lia. Qed.

Lemma parent_left (i : nat) : parent (2 * i + 1) = i.
Proof.
  unfold parent. replace (2 * i + 1 - 1)%nat with (i * 2)%nat by lia.
  by rewrite Nat.div_mul.
Qed.

Lemma parent_right (i : nat) : parent (2 * i + 2) = i.
Proof.
  unfold parent. replace (2 * i + 2 - 1)%nat with (1 + i * 2)%nat by lia.
  rewrite Nat.div_add by lia. reflexivity.
Qed.

Lemma parent_0 : parent 0 = 0%nat.
Proof. reflexivity. Qed.

Lemma sle_refl (x : SearchResult) : sle x x.
Proof. apply ltb_irrefl. Qed.

Lemma sle_trans (x y z : SearchResult) :
  scored x -> scored y -> scored z -> sle x y -> sle y z -> sle x z.
Proof.
  unfold sle, scored. intros Hx Hy Hz Hxy Hyz.
  apply not_ltb_leb in Hxy, Hyz; auto.
  apply not_ltb_leb; auto. eapply leb_trans; eauto.
Qed.

Lemma Less_sle (x y : SearchResult) :
  ltb (Similarity x) (Similarity y) = true -> sle x y.
Proof. apply ltb_asym. Qed.

(** *** Swap *)

Lemma Swap_length (h : TopKHeap) (i j : nat) : length (Swap h i j) = length h.
Proof.
  unfold Swap. destruct (h !! i), (h !! j); auto.
  by rewrite !length_insert.
Qed.

Lemma Swap_perm (h : TopKHeap) (i j : nat) : Swap h i j ≡ₚ h.
Proof.
  unfold Swap. destruct (h !! i) eqn:Ei, (h !! j) eqn:Ej; auto.
  by apply Permutation_insert_swap.
Qed.

Lemma Swap_lookup (h : TopKHeap) (i j c : nat) :
  (i < length h)%nat -> (j < length h)%nat ->
  Swap h i j !! c =
    if decide (c = i) then h !! j
    else if decide (c = j) then h !! i else h !! c.
Proof.
  intros Hi Hj. unfold Swap.
  destruct (lookup_lt_is_Some_2 h i Hi) as [x Ex].
  destruct (lookup_lt_is_Some_2 h j Hj) as [y Ey].
  rewrite Ex, Ey.
  destruct (decide (c = i)) as [->|Hci].
  - rewrite list_lookup_insert_eq; [done|]. by rewrite length_insert.
  - rewrite list_lookup_insert_ne by done.
    destruct (decide (c = j)) as [->|Hcj].
    + by rewrite list_lookup_insert_eq.
    + by rewrite list_lookup_insert_ne.
Qed.

Lemma Less_spec (h : TopKHeap) (i j : nat) (x y : SearchResult) :
  h !! i = Some x -> h !! j = Some y ->
  Less h i j = ltb (Similarity x) (Similarity y).
Proof. intros Hx Hy. unfold Less. by rewrite Hx, Hy. Qed.

Lemma scored_lookup (h : TopKHeap) (c : nat) (x : SearchResult) :
  Forall scored h -> h !! c = Some x -> scored x.
Proof. intros HF Hc. by eapply Forall_lookup_1 in HF. Qed.

Lemma scored_perm (h h' : TopKHeap) :
  h' ≡ₚ h -> Forall scored h -> Forall scored h'.
Proof. intros Hp HF. eapply Permutation_Forall; [symmetry; exact Hp | exact HF]. Qed.

(** *** up *)

Lemma up_inv_heap (h : TopKHeap) : up_inv h 0 -> heap_inv h.
Proof.
  intros [H1 _] c x y [Hc _] Hx Hy. apply (H1 c); auto. lia.
Qed.

Lemma up_inv_stop (h : TopKHeap) (j : nat) :
  (0 < j)%nat -> Less h j (parent j) = false -> up_inv h j -> heap_inv h.
Proof.
  intros Hj HL [H1 _] c x y [Hc _] Hx Hy.
  destruct (decide (c = j)) as [->|Hne]; [|by apply (H1 c)].
  rewrite (Less_spec h j (parent j) x y) in HL by done. exact HL.
Qed.

Lemma up_inv_swap (h : TopKHeap) (j : nat) :
  (0 < j)%nat -> (j < length h)%nat -> Forall scored h ->
  Less h j (parent j) = true -> up_inv h j ->
  up_inv (Swap h (parent j) j) (parent j).
Proof.
  intros Hj Hlen HF HL [H1 H2].
  pose proof (parent_lt j Hj) as Hpj.
  assert (Hpl : (parent j < length h)%nat) by lia.
  destruct (lookup_lt_is_Some_2 h j Hlen) as [b Eb].
  destruct (lookup_lt_is_Some_2 h _ Hpl) as [a Ea].
  rewrite (Less_spec h j (parent j) b a) in HL by done.
  assert (Hba : sle b a) by by apply Less_sle.
  assert (Sa : scored a) by eauto using scored_lookup.
  assert (Sb : scored b) by eauto using scored_lookup.
  split.
  - intros c x y Hc Hci. rewrite !Swap_lookup by done.
    pose proof (parent_lt c Hc) as Hpc.
    destruct (decide (c = parent j)) as [|_]; [done|].
    destruct (decide (c = j)) as [->|Hcj].
    + rewrite decide_True by done. rewrite Ea, Eb. by intros [= <-] [= <-].
    + intros Hx. assert (Sx : scored x) by eauto using scored_lookup.
      destruct (decide (parent c = parent j)) as [Epc|Npc].
      * rewrite Eb. intros [= <-].
        apply (sle_trans _ a); auto. apply (H1 c); auto. by rewrite Epc.
      * destruct (decide (parent c = j)) as [Ecj|Ncj].
        -- rewrite Ea. intros [= <-]. by apply (H2 c).
        -- intros Hy. by apply (H1 c).
  - intros c x y Hp Hc Hcp. rewrite !Swap_lookup by done.
    pose proof (parent_lt _ Hp) as Hpp.
    pose proof (parent_lt c Hc) as Hpc.
    destruct (decide (c = parent j)) as [|_]; [lia|].
    rewrite (decide_False (P := parent (parent j) = parent j)) by lia.
    rewrite (decide_False (P := parent (parent j) = j)) by lia.
    destruct (decide (c = j)) as [->|Hcj].
    + rewrite Ea. intros [= <-] Hy. by apply (H1 (parent j)); auto; lia.
    + intros Hx Hy.
      assert (Sx : scored x) by eauto using scored_lookup.
      assert (Sy : scored y) by eauto using scored_lookup.
      apply (sle_trans _ a); auto.
      * apply (H1 (parent j)); auto; lia.
      * apply (H1 c); auto. by rewrite Hcp.
Qed.

Lemma up_loop_spec (fuel : nat) : ∀ (h : TopKHeap) (j : nat),
  (j < fuel)%nat -> (j < length h)%nat -> Forall scored h -> up_inv h j ->
  heap_inv (heap.up_loop fuel h j) ∧ heap.up_loop fuel h j ≡ₚ h.
Proof.
  induction fuel as [|fuel IH]; intros h j Hf Hlen HF Hinv; [lia|].
  cbn [heap.up_loop]. fold (parent j).
  destruct (Nat.eqb_spec (parent j) j) as [E|N]; cbn [orb].
  - assert (j = 0%nat) as ->.
    { destruct j; [done|]. pose proof (parent_lt (S j)). lia. }
    split; [by apply up_inv_heap | done].
  - assert (Hj : (0 < j)%nat) by (destruct j; [done | lia]).
    destruct (Less h j (parent j)) eqn:HL; cbn [negb].
    + pose proof (parent_lt j Hj).
      destruct (IH (Swap h (parent j) j) (parent j)) as [G1 G2].
      * lia.
      * rewrite Swap_length. lia.
      * eapply scored_perm; [apply Swap_perm | done].
      * by apply up_inv_swap.
      * split; [exact G1|]. by rewrite G2, Swap_perm.
    + split; [by eapply up_inv_stop | done].
Qed.

Lemma up_loop_fuel (f1 : nat) : ∀ (f2 i : nat) (h : TopKHeap),
  (i < f1)%nat -> (i < f2)%nat -> heap.up_loop f1 h i = heap.up_loop f2 h i.
Proof.
  induction f1 as [|f1 IH]; intros f2 i h H1 H2; [lia|].
  destruct f2 as [|f2]; [lia|]. cbn [heap.up_loop]. fold (parent i).
  destruct (Nat.eqb_spec (parent i) i) as [E|N]; cbn [orb]; [done|].
  destruct (Less h i (parent i)); cbn [negb]; [|done].
  assert (Hj : (0 < i)%nat) by (destruct i; [done | lia]).
  pose proof (parent_lt i Hj). apply IH; lia.
Qed.

(** The loop of [up] never runs out of rounds: it is the loop of the
    source. *)
Lemma up_unfold (h : TopKHeap) (j : nat) :
  heap.up h j =
    if Nat.eqb (parent j) j || negb (Less h j (parent j)) then h
    else heap.up (Swap h (parent j) j) (parent j).
Proof.
  unfold heap.up at 1. cbn [heap.up_loop]. fold (parent j).
  destruct (Nat.eqb_spec (parent j) j) as [E|N]; cbn [orb]; [done|].
  destruct (Less h j (parent j)); cbn [negb]; [|done].
  assert (Hj : (0 < j)%nat) by (destruct j; [done | lia]).
  pose proof (parent_lt j Hj) as Hp.
  unfold heap.up. apply up_loop_fuel; lia.
Qed.

Lemma Push_spec (h : TopKHeap) (x : SearchResult) :
  heap_inv h -> Forall scored h -> scored x ->
  heap_inv (heap.Push h x) ∧ heap.Push h x ≡ₚ x :: h.
Proof.
  intros Hh HF Hx. unfold heap.Push, vector.Push, Len, heap.up.
  rewrite length_app. simpl.
  replace (length h + 1 - 1)%nat with (length h) by lia.
  destruct (up_loop_spec (S (length h)) (h ++ [x]) (length h)) as [G1 G2].
  - lia.
  - rewrite length_app. simpl. lia.
  - apply Forall_app. split; [done|]. by constructor.
  - split.
    + intros c a b Hc Hne Ha Hb.
      assert (Hcl : (c < length h)%nat).
      { apply lookup_lt_Some in Ha. rewrite length_app in Ha. simpl in Ha. lia. }
      pose proof (parent_lt c Hc).
      rewrite lookup_app_l in Ha, Hb by lia.
      by apply (Hh c); auto.
    + intros c a b Hj Hc Hp Ha Hb.
      apply lookup_lt_Some in Ha. rewrite length_app in Ha. simpl in Ha.
      pose proof (parent_lt c Hc). lia.
  - split; [done|]. rewrite G2. by rewrite Permutation_app_comm.
Qed.

Lemma up_loop_perm (fuel : nat) : ∀ (h : TopKHeap) (j : nat),
  heap.up_loop fuel h j ≡ₚ h.
Proof.
  induction fuel as [|fuel IH]; intros h j; cbn [heap.up_loop]; [done|].
  destruct (_ || _); [done|]. by rewrite IH, Swap_perm.
Qed.

Lemma Push_perm (h : TopKHeap) (x : SearchResult) : heap.Push h x ≡ₚ x :: h.
Proof.
  unfold heap.Push, vector.Push, heap.up.
  rewrite up_loop_perm. by rewrite Permutation_app_comm.
Qed.

Lemma Push_length (h : TopKHeap) (x : SearchResult) :
  length (heap.Push h x) = S (length h).
Proof.
  unfold heap.Push, vector.Push, Len, heap.up.
  generalize (S (length (h ++ [x]) - 1)) as fuel.
  generalize (length (h ++ [x]) - 1)%nat as j.
  assert (G : ∀ fuel (g : TopKHeap) j, length (heap.up_loop fuel g j) = length g).
  { induction fuel as [|fuel IH]; intros g j; cbn [heap.up_loop]; [done|].
    destruct (_ || _); [done|]. by rewrite IH, Swap_length. }
  intros j fuel. rewrite G, length_app. simpl. lia.
Qed.

(** *** down *)

Lemma down_inv_leaf (h : TopKHeap) (i n : nat) :
  (n ≤ 2 * i + 1)%nat -> down_inv h i n -> heap_upto n h.
Proof.
  intros Hn [H1 _] c x y Hc Hx Hy. apply (H1 c); auto.
  destruct (parent_cases c); lia.
Qed.

Lemma child_cases (h : TopKHeap) (i n : nat) :
  (child h i n = (2 * i + 2)%nat ∧ (2 * i + 2 < n)%nat
     ∧ Less h (2 * i + 2) (2 * i + 1) = true)
  ∨ (child h i n = (2 * i + 1)%nat
     ∧ ((n ≤ 2 * i + 2)%nat ∨ Less h (2 * i + 2) (2 * i + 1) = false)).
Proof.
  unfold child. replace (2 * i + 1 + 1)%nat with (2 * i + 2)%nat by lia.
  destruct (Nat.ltb_spec (2 * i + 2) n) as [L|L]; cbn [andb].
  - destruct (Less h (2 * i + 2) (2 * i + 1)); [left | right]; auto.
  - right. auto.
Qed.

Lemma child_least (h : TopKHeap) (i n c : nat) (x b : SearchResult) :
  (2 * i + 1 < n)%nat -> (0 < c < n)%nat -> parent c = i ->
  h !! c = Some x -> h !! child h i n = Some b ->
  c = child h i n ∨ sle b x.
Proof.
  intros Hn Hc Hp Hx Hb.
  destruct (parent_cases c) as [E|E]; [lia| |]; rewrite Hp in E;
    destruct (child_cases h i n) as [(Ec & L & HL)|(Ec & HL)];
    rewrite Ec in *; try (left; lia).
  - right. rewrite <- E in HL.
    rewrite (Less_spec h _ c b x) in HL by done. by apply Less_sle.
  - right. destruct HL as [L|HL]; [lia|]. rewrite <- E in HL.
    rewrite (Less_spec h c _ x b) in HL by done. exact HL.
Qed.

Lemma child_range (h : TopKHeap) (i n : nat) :
  (2 * i + 1 < n)%nat ->
  (i < child h i n < n)%nat ∧ parent (child h i n) = i.
Proof.
  intros Hn. unfold child.
  destruct (Nat.ltb_spec (2 * i + 1 + 1) n) as [L|L]; cbn [andb].
  - destruct (Less h _ _).
    + replace (2 * i + 1 + 1)%nat with (2 * i + 2)%nat by lia.
      rewrite parent_right. lia.
    + rewrite parent_left. lia.
  - rewrite parent_left. lia.
Qed.

Lemma down_inv_stop (h : TopKHeap) (i n : nat) :
  (2 * i + 1 < n)%nat -> (n ≤ length h)%nat -> Forall scored h ->
  Less h (child h i n) i = false -> down_inv h i n -> heap_upto n h.
Proof.
  intros Hn Hlen HF HL [H1 _] c x y Hc Hx Hy.
  destruct (decide (parent c = i)) as [Hp|Hp]; [|by apply (H1 c)].
  destruct (child_range h i n Hn) as [Hr Hpr].
  destruct (lookup_lt_is_Some_2 h (child h i n)) as [b Eb]; [lia|].
  rewrite Hp in Hy.
  rewrite (Less_spec h _ i b y) in HL by done.
  destruct (child_least h i n c x b) as [->|Hbx]; auto.
  - rewrite Eb in Hx. by injection Hx as <-.
  - apply (sle_trans _ b); eauto using scored_lookup.
Qed.

Lemma down_inv_swap (h : TopKHeap) (i n : nat) :
  (2 * i + 1 < n)%nat -> (n ≤ length h)%nat -> Forall scored h ->
  Less h (child h i n) i = true -> down_inv h i n ->
  down_inv (Swap h i (child h i n)) (child h i n) n.
Proof.
  intros Hn Hlen HF HL [H1 H2].
  destruct (child_range h i n Hn) as [Hr Hpr].
  set (j := child h i n) in *.
  assert (Hil : (i < length h)%nat) by lia.
  assert (Hjl : (j < length h)%nat) by lia.
  destruct (lookup_lt_is_Some_2 h i Hil) as [a Ea].
  destruct (lookup_lt_is_Some_2 h j Hjl) as [b Eb].
  rewrite (Less_spec h j i b a) in HL by done.
  assert (Hba : sle b a) by by apply Less_sle.
  assert (Sa : scored a) by eauto using scored_lookup.
  assert (Sb : scored b) by eauto using scored_lookup.
  split.
  - intros c x y Hc Hpc. rewrite !Swap_lookup by done.
    pose proof (parent_lt c (proj1 Hc)) as Hcp.
    destruct (decide (c = i)) as [->|Hci].
    + rewrite Eb. intros [= <-].
      rewrite (decide_False (P := parent i = i)) by lia.
      rewrite (decide_False (P := parent i = j)) by lia.
      intros Hy. apply (H2 j); auto; lia.
    + destruct (decide (c = j)) as [->|Hcj].
      * rewrite Ea, Hpr. rewrite decide_True by done. rewrite Eb.
        by intros [= <-] [= <-].
      * intros Hx. rewrite (decide_False (P := parent c = j)) by done.
        destruct (decide (parent c = i)) as [Epi|Npi].
        -- rewrite Eb. intros [= <-].
           destruct (child_least h i n c x b) as [|G]; auto. done.
        -- intros Hy. by apply (H1 c).
  - intros c x y Hj Hc Hpc. rewrite !Swap_lookup by done.
    pose proof (parent_lt c (proj1 Hc)) as Hcp.
    rewrite (decide_False (P := c = i)) by lia.
    rewrite (decide_False (P := c = j)) by lia.
    rewrite Hpr. rewrite decide_True by done. rewrite Eb.
    intros Hx [= <-]. apply (H1 c); auto; [lia|]. by rewrite Hpc.
Qed.

Lemma down_loop_spec (fuel : nat) : ∀ (h : TopKHeap) (i n : nat),
  (n - i < fuel)%nat -> (n ≤ length h)%nat -> Forall scored h ->
  down_inv h i n ->
  heap_upto n (heap.down_loop fuel h i n).1.
Proof.
  induction fuel as [|fuel IH]; intros h i n Hf Hlen HF Hinv; [lia|].
  cbn [heap.down_loop].
  destruct (Nat.leb_spec n (2 * i + 1)) as [L|L].
  { by eapply down_inv_leaf. }
  fold (child h i n).
  destruct (child_range h i n L) as [Hr Hpr].
  destruct (Less h (child h i n) i) eqn:HL; cbn [negb].
  - apply IH.
    + lia.
    + by rewrite Swap_length.
    + eapply scored_perm; [apply Swap_perm | done].
    + by apply down_inv_swap.
  - by eapply down_inv_stop.
Qed.

Lemma down_loop_frame (fuel : nat) : ∀ (h : TopKHeap) (i n : nat),
  (i < n ≤ length h)%nat ∨ (n ≤ 2 * i + 1)%nat ->
  (heap.down_loop fuel h i n).1 ≡ₚ h
  ∧ length (heap.down_loop fuel h i n).1 = length h
  ∧ ∀ c, (n ≤ c)%nat -> (heap.down_loop fuel h i n).1 !! c = h !! c.
Proof.
  induction fuel as [|fuel IH]; intros h i n Hin; [done|].
  cbn [heap.down_loop].
  destruct (Nat.leb_spec n (2 * i + 1)) as [L|L]; [done|].
  fold (child h i n).
  destruct (child_range h i n L) as [Hr Hpr].
  destruct (Less h (child h i n) i) eqn:HL; cbn [negb]; [|done].
  destruct Hin as [Hin|Hin]; [|lia].
  destruct (IH (Swap h i (child h i n)) (child h i n) n) as (G1 & G2 & G3).
  { left. rewrite Swap_length. lia. }
  split; [by rewrite G1, Swap_perm|].
  split; [by rewrite G2, Swap_length|].
  intros c Hc. rewrite G3 by done. rewrite Swap_lookup by lia.
  rewrite (decide_False (P := c = i)) by lia.
  by rewrite (decide_False (P := c = child h i n)) by lia.
Qed.

Lemma down_loop_fuel (f1 : nat) : ∀ (f2 : nat) (h : TopKHeap) (i n : nat),
  (n - i < f1)%nat -> (n - i < f2)%nat ->
  heap.down_loop f1 h i n = heap.down_loop f2 h i n.
Proof.
  induction f1 as [|f1 IH]; intros f2 h i n H1 H2; [lia|].
  destruct f2 as [|f2]; [lia|]. cbn [heap.down_loop].
  destruct (Nat.leb_spec n (2 * i + 1)) as [L|L]; [done|].
  fold (child h i n).
  destruct (child_range h i n L) as [Hr Hpr].
  destruct (Less h (child h i n) i); cbn [negb]; [|done].
  apply IH; lia.
Qed.

(** The loop of [down] never runs out of rounds either. *)
Lemma down_unfold (h : TopKHeap) (i n : nat) :
  heap.down_loop (S (n - i)) h i n =
    if Nat.leb n (2 * i + 1) then (h, i)
    else if negb (Less h (child h i n) i) then (h, i)
    else heap.down_loop (S (n - child h i n)) (Swap h i (child h i n))
           (child h i n) n.
Proof.
  set (next := heap.down_loop (S (n - child h i n)) _ _ _).
  cbn [heap.down_loop].
  destruct (Nat.leb_spec n (2 * i + 1)) as [L|L]; [done|].
  fold (child h i n).
  destruct (child_range h i n L) as [Hr Hpr].
  destruct (Less h (child h i n) i); cbn [negb]; [|done].
  subst next. apply down_loop_fuel; lia.
Qed.

(** *** Pop *)

Lemma root_least (h : TopKHeap) (r : SearchResult) :
  heap_inv h -> Forall scored h -> h !! 0%nat = Some r ->
  ∀ c x, h !! c = Some x -> sle r x.
Proof.
  intros Hh HF Hr c. induction c as [c IH] using lt_wf_ind. intros x Hx.
  destruct (decide (c = 0%nat)) as [->|Hc].
  - rewrite Hr in Hx. injection Hx as <-. apply sle_refl.
  - assert (H0 : (0 < c)%nat) by lia.
    pose proof (parent_lt c H0) as Hp.
    pose proof (lookup_lt_Some _ _ _ Hx) as Hl.
    destruct (lookup_lt_is_Some_2 h (parent c)) as [y Ey]; [lia|].
    apply (sle_trans _ y); eauto using scored_lookup.
Qed.

Lemma down_fst (h : TopKHeap) (i n : nat) :
  (heap.down h i n).1 = (heap.down_loop (S (n - i)) h i n).1.
Proof. unfold heap.down. by destruct (heap.down_loop _ _ _ _). Qed.

Lemma Pop_total (h : TopKHeap) :
  h ≠ [] ->
  ∃ r h', heap.Pop h = Some (r, h') ∧ h !! 0%nat = Some r
          ∧ r :: h' ≡ₚ h ∧ length h = S (length h')
          ∧ ∀ c, (c < length h')%nat ->
              h' !! c = (heap.down_loop (S (length h')) (Swap h 0 (length h')) 0
                           (length h')).1 !! c.
Proof.
  intros Hne. unfold heap.Pop, Len.
  destruct (length h) as [|n] eqn:El; [by destruct h|].
  rewrite down_fst. replace (S (n - 0)) with (S n) by lia.
  set (g := (heap.down_loop (S n) (Swap h 0 n) 0 n).1).
  destruct (down_loop_frame (S n) (Swap h 0 n) 0 n) as (G1 & G2 & G3).
  { rewrite Swap_length. lia. }
  fold g in G1, G2, G3. rewrite Swap_length in G2. rewrite Swap_perm in G1.
  destruct (lookup_lt_is_Some_2 h 0) as [r Er]; [lia|].
  assert (Hlast : last g = Some r).
  { rewrite last_lookup, G2, El. simpl. rewrite G3 by lia.
    rewrite Swap_lookup by lia.
    destruct (decide (n = 0%nat)) as [->|]; [done|].
    by rewrite decide_True. }
  unfold vector.Pop. rewrite Hlast.
  apply last_Some in Hlast as [g' Eg].
  assert (Hg' : length g' = n).
  { rewrite Eg, length_app in G2. simpl in G2. lia. }
  exists r, (take (length g - 1) g).
  assert (Et : take (length g - 1) g = g').
  { rewrite G2, El. replace (S n - 1)%nat with (length g') by lia.
    rewrite Eg. by rewrite take_app_length. }
  rewrite Et, Hg'. repeat split; auto.
  - rewrite <- G1, Eg. by rewrite Permutation_app_comm.
  - intros c Hc. change (g' !! c = g !! c). rewrite Eg.
    by rewrite lookup_app_l by lia.
Qed.

Lemma Pop_heap (h h' : TopKHeap) (r : SearchResult) :
  heap_inv h -> Forall scored h -> heap.Pop h = Some (r, h') -> heap_inv h'.
Proof.
  intros Hh HF HP.
  assert (Hne : h ≠ []) by (intros ->; discriminate).
  destruct (Pop_total h Hne) as (r' & h'' & E & Hr & Hperm & Hlen & Hlk).
  rewrite E in HP. injection HP as -> ->.
  set (n := length h') in *.
  assert (Hup : heap_upto n (heap.down_loop (S n) (Swap h 0 n) 0 n).1).
  { apply down_loop_spec.
    - lia.
    - rewrite Swap_length. lia.
    - eapply scored_perm; [apply Swap_perm | done].
    - split.
      + intros c x y Hc Hpc. rewrite !Swap_lookup by lia.
        pose proof (parent_lt c (proj1 Hc)).
        rewrite (decide_False (P := c = 0%nat)) by lia.
        rewrite (decide_False (P := c = n)) by lia.
        rewrite (decide_False (P := parent c = 0%nat)) by lia.
        rewrite (decide_False (P := parent c = n)) by lia.
        intros Hx Hy. apply (Hh c); auto. lia.
      + intros c x y Hi. lia. }
  intros c x y Hc. fold n in Hc.
  pose proof (parent_lt c (proj1 Hc)).
  rewrite !Hlk by lia. by apply Hup.
Qed.

End HeapProperties.

(** ** The merge and the drain of Search *)

Section SearchProperties.
Import vector order storage.

Lemma merge_results_spec (k : Z) (rs : list SearchResult) :
  1 ≤ k -> ∀ h : TopKHeap,
  ∃ h', merge_results k rs h = Some h'
      ∧ (Z.of_nat (length h) ≤ k ->
           Z.of_nat (length h') = Z.min k (Z.of_nat (length h + length rs)))
      ∧ (heap_inv h -> Forall scored h -> Forall scored rs ->
           heap_inv h' ∧ Forall scored h')
      ∧ (∀ P : SearchResult -> Prop, Forall P h -> Forall P rs -> Forall P h').
Proof.
  intros Hk. induction rs as [|res rs IH]; intros h; cbn [merge_results].
  { exists h. split; [done|]. split; [|done]. intros. rewrite Nat.add_0_r. lia. }
  unfold Len. destruct (Z.ltb_spec (Z.of_nat (length h)) k) as [L|L].
  - destruct (IH (heap.Push h res)) as (h' & E & Hlen & Hinv & Hall).
    exists h'. split; [done|]. rewrite Push_length in Hlen. split; [|split].
    + intros _. rewrite Hlen by lia. f_equal. simpl. lia.
    + intros Hh HF HR. apply Forall_cons in HR as [Hres HR].
      destruct (Push_spec h res) as [P1 P2]; auto.
      apply Hinv; auto. eapply scored_perm; [exact P2|]. by constructor.
    + intros P HP HR. apply Forall_cons in HR as [Hres HR].
      apply Hall; [|done].
      eapply Permutation_Forall; [symmetry; apply Push_perm|]. by constructor.
  - assert (Hne : h ≠ []) by (intros ->; simpl in L; lia).
    destruct (Pop_total h Hne) as (r & g & EP & Er & Hperm & Hl & _).
    rewrite Er.
    destruct (ltb (Similarity r) (Similarity res)) eqn:Hcmp.
    + rewrite EP.
      destruct (IH (heap.Push g res)) as (h' & E & Hlen & Hinv & Hall).
      exists h'. split; [done|]. rewrite Push_length in Hlen. split; [|split].
      * intros Hle. rewrite Hlen by lia. simpl. lia.
      * intros Hh HF HR. apply Forall_cons in HR as [Hres HR].
        assert (HFg : Forall scored g).
        { eapply scored_perm in HF; [|exact Hperm]. by apply Forall_cons in HF as [_ ?]. }
        destruct (Push_spec g res) as [P1 P2]; auto.
        { by eapply Pop_heap. }
        apply Hinv; auto. eapply scored_perm; [exact P2|]. by constructor.
      * intros P HP HR. apply Forall_cons in HR as [Hres HR].
        apply Hall; [|done].
        eapply Permutation_Forall; [symmetry; apply Push_perm|].
        constructor; [done|].
        eapply Permutation_Forall in HP; [|symmetry; exact Hperm].
        by apply Forall_cons in HP as [_ ?].
    + destruct (IH h) as (h' & E & Hlen & Hinv & Hall).
      exists h'. split; [done|]. split; [|split].
      * intros Hle. rewrite Hlen by lia. simpl. lia.
      * intros Hh HF HR. apply Forall_cons in HR as [Hres HR]. by apply Hinv.
      * intros P HP HR. apply Forall_cons in HR as [Hres HR]. by apply Hall.
Qed.

Lemma merge_results_app (k : Z) (rs1 rs2 : list SearchResult) :
  ∀ h : TopKHeap,
  merge_results k (rs1 ++ rs2) h =
    match merge_results k rs1 h with
    | Some h' => merge_results k rs2 h'
    | None => None
    end.
Proof.
  induction rs1 as [|res rs1 IH]; intros h; cbn [merge_results app]; [done|].
  destruct (Z.ltb _ _); [apply IH|].
  destruct (h !! 0%nat); [|done].
  destruct (ltb _ _); [|apply IH].
  destruct (heap.Pop h) as [[? ?]|]; [apply IH | done].
Qed.

(** *** The scan of a shard *)

Lemma DotProduct_fits (nq : list float32) (entry : string * list float32) :
  fits nq entry -> DotProduct nq (snd entry) = inl (dot nq (snd entry)).
Proof.
  unfold fits, DotProduct. intros ->. by rewrite Nat.eqb_refl.
Qed.

Lemma DotProduct_misfit (nq : list float32) (entry : string * list float32) :
  ¬ fits nq entry -> DotProduct nq (snd entry) = inr ErrDimensionMismatch.
Proof.
  unfold fits, DotProduct. intros Hne.
  destruct (Nat.eqb_spec (length nq) (length (snd entry))); [congruence | done].
Qed.

Lemma scan_loop_fits (nq : list float32) (entries : list (string * list float32)) :
  Forall (fits nq) entries -> ∀ acc,
  scan_loop nq entries acc =
    {| results := acc ++ map (candidate nq) entries; err := None |}.
Proof.
  induction 1 as [|[key vec] entries Hx HF IH]; intros acc; cbn [scan_loop map].
  - by rewrite app_nil_r.
  - pose proof (DotProduct_fits nq (key, vec) Hx) as E. cbn [snd] in E.
    rewrite E, IH. by rewrite <- app_assoc.
Qed.

Lemma scan_loop_misfit (nq : list float32) (entries : list (string * list float32)) :
  Exists (fun entry => ¬ fits nq entry) entries -> ∀ acc,
  scan_loop nq entries acc =
    {| results := []; err := Some ErrDimensionMismatch |}.
Proof.
  induction entries as [|[key vec] entries IH]; intros HE acc; cbn [scan_loop].
  - by apply Exists_nil in HE.
  - destruct (Nat.eq_dec (length vec) (length nq)) as [Hf|Hf].
    + pose proof (DotProduct_fits nq (key, vec) Hf) as E. cbn [snd] in E.
      rewrite E. apply IH.
      apply Exists_cons in HE as [?|?]; [done | auto].
    + pose proof (DotProduct_misfit nq (key, vec) Hf) as E. cbn [snd] in E.
      by rewrite E.
Qed.

Lemma scan_fits (nq : list float32) (entries : list (string * list float32)) :
  Forall (fits nq) entries ->
  scan nq entries = {| results := map (candidate nq) entries; err := None |}.
Proof. intros HF. unfold scan. by rewrite scan_loop_fits. Qed.

Lemma scan_misfit (nq : list float32) (entries : list (string * list float32)) :
  Exists (fun entry => ¬ fits nq entry) entries ->
  scan nq entries = {| results := []; err := Some ErrDimensionMismatch |}.
Proof. intros HE. unfold scan. by rewrite scan_loop_misfit. Qed.

Lemma fits_dec (nq : list float32) (entries : list (string * list float32)) :
  {Forall (fits nq) entries} + {Exists (fun entry => ¬ fits nq entry) entries}.
Proof. apply Forall_Exists_dec. intros x. apply Nat.eq_dec. Qed.

(** *** The loop over the channel *)

Lemma merge_channel_fits (k : Z) (nq : list float32)
    (arrivals : list (list (string * list float32))) :
  1 ≤ k -> Forall (Forall (fits nq)) arrivals -> ∀ h : TopKHeap,
  ∃ h', merge_channel k (map (scan nq) arrivals) h = Returns h'
      ∧ merge_results k (map (candidate nq) (concat arrivals)) h = Some h'.
Proof.
  intros Hk. induction 1 as [|entries arrivals Hx HF IH]; intros h.
  { exists h. done. }
  cbn [map merge_channel concat]. rewrite (scan_fits _ _ Hx). cbn [err results].
  destruct (merge_results_spec k (map (candidate nq) entries) Hk h)
    as (h1 & E1 & _).
  rewrite E1. destruct (IH h1) as (h' & E2 & E3).
  exists h'. split; [done|].
  by rewrite map_app, merge_results_app, E1.
Qed.

Lemma merge_channel_misfit (k : Z) (nq : list float32)
    (arrivals : list (list (string * list float32))) :
  1 ≤ k -> Exists (Exists (fun entry => ¬ fits nq entry)) arrivals ->
  ∀ h : TopKHeap,
  merge_channel k (map (scan nq) arrivals) h = Fails ErrDimensionMismatch.
Proof.
  intros Hk. induction arrivals as [|entries arrivals IH]; intros HE h.
  { by apply Exists_nil in HE. }
  cbn [map merge_channel].
  destruct (fits_dec nq entries) as [Hf|Hf].
  - rewrite (scan_fits _ _ Hf). cbn [err results].
    destruct (merge_results_spec k (map (candidate nq) entries) Hk h)
      as (h1 & -> & _).
    apply IH. apply Exists_cons in HE as [HE|HE]; [|done].
    exfalso. apply Exists_exists in HE as (x & Hin & Hx).
    by eapply Forall_forall in Hf.
  - by rewrite (scan_misfit _ _ Hf).
Qed.

(** *** The drain *)

Lemma drain_loop_spec (count : nat) : ∀ (h : TopKHeap) (results : list SearchResult),
  length h = count -> (count ≤ length results)%nat ->
  ∃ l, drain_loop count h results = Some (l ++ drop count results)
     ∧ l ≡ₚ h
     ∧ (heap_inv h -> Forall scored h ->
          StronglySorted (fun a b => sle b a) l).
Proof.
  induction count as [|i IH]; intros h results Hl Hr; cbn [drain_loop].
  { exists []. destruct h; [|done]. repeat split; auto. constructor. }
  assert (Hne : h ≠ []) by (intros ->; done).
  destruct (Pop_total h Hne) as (r & g & EP & Er & Hperm & Hlen & _).
  rewrite EP.
  destruct (IH g (<[i := r]> results)) as (l & E & Pl & Sl).
  { lia. }
  { rewrite length_insert. lia. }
  exists (l ++ [r]). split; [|split].
  - rewrite E. f_equal. rewrite <- app_assoc. f_equal.
    rewrite (drop_S (<[i := r]> results) r i).
    + by rewrite drop_insert_lt by lia.
    + apply list_lookup_insert_eq. lia.
  - rewrite Pl, <- Hperm. by rewrite Permutation_app_comm.
  - intros Hh HF.
    assert (HFg : Forall scored g).
    { eapply scored_perm in HF; [|exact Hperm]. by apply Forall_cons in HF as [_ ?]. }
    apply StronglySorted_app_2.
    + intros x1 x2 H1 H2. apply list_elem_of_singleton in H2 as ->.
      assert (Hx : x1 ∈ h).
      { rewrite <- Hperm. apply list_elem_of_further. by rewrite <- Pl. }
      apply list_elem_of_lookup in Hx as [c Hc].
      by eapply root_least.
    + apply Sl; [by eapply Pop_heap | done].
    + repeat constructor.
Qed.

Lemma drain_spec (h : TopKHeap) :
  ∃ l, drain h = Some l ∧ l ≡ₚ h
     ∧ (heap_inv h -> Forall scored h -> StronglySorted (fun a b => sle b a) l).
Proof.
  unfold drain, Len.
  destruct (drain_loop_spec (length h) h (replicate (length h) zeroResult))
    as (l & E & Pl & Sl); [done | by rewrite length_replicate |].
  exists l. rewrite E. split; [|done].
  rewrite drop_ge by (by rewrite length_replicate). by rewrite app_nil_r.
Qed.

End SearchProperties.

(** ** The store *)

Section StoreProperties.
Import vector order storage.

Lemma mul_zero_zero (x : float32) : is_zero x = true -> mul x x = zero.
Proof. destruct x as [[]| | |]; try discriminate; reflexivity. Qed.

Lemma Magnitude_all_zero (values : list float32) :
  all_zero values -> Magnitude values = zero.
Proof.
  intros HZ. unfold Magnitude.
  assert (E : fold_left (fun sum val => add sum (mul val val)) values zero = zero).
  { induction HZ as [|x values Hx HZ IH]; [done|].
    cbn [fold_left]. by rewrite (mul_zero_zero x Hx). }
  by rewrite E.
Qed.

Lemma Normalize_all_zero (values : list float32) :
  all_zero values -> Normalize values = inr ErrZeroVector.
Proof. intros HZ. unfold Normalize. by rewrite Magnitude_all_zero. Qed.

Lemma Normalize_nonzero (values : list float32) :
  nonzero values ->
  Normalize values = inl (map (fun val => div val (Magnitude values)) values).
Proof. unfold nonzero, Normalize. by intros ->. Qed.

Lemma Normalize_inl (values normalized : list float32) :
  Normalize values = inl normalized ->
  nonzero values ∧ length normalized = length values ∧ values ≠ [].
Proof.
  unfold Normalize, nonzero.
  destruct (eqb (Magnitude values) zero) eqn:E; [discriminate|].
  intros [= <-]. split; [done|]. split; [by rewrite length_map|].
  intros ->. discriminate.
Qed.

Lemma Normalize_cases (values : list float32) :
  (nonzero values ∧ ∃ normalized, Normalize values = inl normalized)
  ∨ (eqb (Magnitude values) zero = true
     ∧ Normalize values = inr ErrZeroVector).
Proof.
  unfold Normalize, nonzero.
  destruct (eqb (Magnitude values) zero); [right | left]; eauto.
Qed.

(** *** The shards *)

Lemma getShard_lt (key : string) : (getShard key < ShardCount)%nat.
Proof.
  unfold getShard, ShardCount.
  pose proof (Z.mod_pos_bound (fnv.Sum32a (list_ascii_of_string key)) 32).
  change (Z.of_nat 32) with 32. lia.
Qed.

Lemma elem_of_alter (f : shard -> shard) (i : nat) (l : list shard) (data' : shard) :
  data' ∈ alter f i l ->
  data' ∈ l ∨ ∃ data, l !! i = Some data ∧ data' = f data.
Proof.
  intros Hin. apply list_elem_of_lookup in Hin as [j Hj].
  destruct (decide (i = j)) as [->|Hne].
  - rewrite list_lookup_alter_eq in Hj.
    destruct (l !! j) as [data|] eqn:E; [|discriminate].
    injection Hj as <-. right. eauto.
  - rewrite list_lookup_alter_ne in Hj by done.
    left. apply list_elem_of_lookup. eauto.
Qed.

Lemma shardAt_lookup (s : Storage) (i : nat) (data : shard) :
  shards s !! i = Some data -> shardAt s i = data.
Proof. intros E. unfold shardAt. by rewrite list_lookup_total_alt, E. Qed.

Lemma shardAt_stored (s : Storage) (i : nat) (key : string) (vec : list float32) :
  shardAt s i !! key = Some vec -> stored s key vec.
Proof.
  unfold shardAt. rewrite list_lookup_total_alt.
  destruct (shards s !! i) as [data|] eqn:E; simpl.
  - intros Hk. exists data. split; [|done]. apply list_elem_of_lookup. eauto.
  - by rewrite lookup_empty.
Qed.

(** *** Set, case by case *)

Lemma Set_fixed_mismatch (key : string) (values : list float32) (s : Storage) :
  dim s ≠ 0 -> len values ≠ dim s ->
  Set_ key values s = (Some (ErrSetDimension (dim s) (len values)), s).
Proof.
  intros Hd Hl. unfold Set_.
  destruct (Z.eqb_spec (dim s) 0) as [|_]; [done|].
  by destruct (Z.eqb_spec (len values) (dim s)).
Qed.

Lemma Set_fixed_zero (key : string) (values : list float32) (s : Storage) :
  dim s ≠ 0 -> len values = dim s ->
  eqb (Magnitude values) zero = true ->
  Set_ key values s = (Some (ErrWrap "failed to normalize vector" ErrZeroVector), s).
Proof.
  intros Hd Hl Hz. unfold Set_.
  destruct (Z.eqb_spec (dim s) 0) as [|_]; [done|].
  destruct (Z.eqb_spec (len values) (dim s)); [|done]. cbn [negb].
  unfold Normalize. by rewrite Hz.
Qed.

Lemma Set_fixed_ok (key : string) (values normalized : list float32) (s : Storage) :
  dim s ≠ 0 -> len values = dim s -> Normalize values = inl normalized ->
  Set_ key values s = (None, store s (getShard key) key normalized).
Proof.
  intros Hd Hl Hn. unfold Set_.
  destruct (Z.eqb_spec (dim s) 0) as [|_]; [done|].
  destruct (Z.eqb_spec (len values) (dim s)); [|done]. cbn [negb].
  by rewrite Hn.
Qed.

(** On an unset dimension: [unset s d] is [s] once the compare-and-swap
    has put [d] in the place of 0. *)
Lemma Set_unset (key : string) (values : list float32) (s : Storage) :
  dim s = 0 ->
  Set_ key values s =
    let s1 := {| shards := shards s; dim := int32 (len values) |} in
    if negb (Z.eqb (len values) (int32 (len values))) then
      (Some (ErrSetDimension (int32 (len values)) (len values)), s1)
    else
      match Normalize values with
      | inr e => (Some (ErrWrap "failed to normalize vector" e), s1)
      | inl normalized => (None, store s1 (getShard key) key normalized)
      end.
Proof.
  intros Hd. unfold Set_, CompareAndSwap. rewrite Hd. reflexivity.
Qed.

Lemma int32_small (n : Z) : 0 ≤ n < 2 ^ 31 -> int32 n = n.
Proof.
  intros Hn. unfold int32. rewrite Z.mod_small; lia.
Qed.

Lemma Set_shards_or_store (key : string) (values : list float32) (s : Storage) :
  (shards (Set_ key values s).2 = shards s ∧ (Set_ key values s).1 ≠ None)
  ∨ (∃ normalized, Normalize values = inl normalized
       ∧ (Set_ key values s).1 = None
       ∧ len values = dim (Set_ key values s).2
       ∧ shards (Set_ key values s).2 =
           alter (fun data => <[key := normalized]> data) (getShard key) (shards s)).
Proof.
  destruct (Z.eq_dec (dim s) 0) as [Hd|Hd].
  - rewrite (Set_unset key values s Hd). cbn zeta.
    destruct (Z.eqb_spec (len values) (int32 (len values))) as [E|E]; cbn [negb].
    + destruct (Normalize values) as [normalized|e] eqn:EN.
      * right. exists normalized. by repeat split.
      * left. by split.
    + left. by split.
  - destruct (Z.eq_dec (len values) (dim s)) as [Hl|Hl].
    + destruct (Normalize_cases values) as [(Hnz & n & EN)|[Hz EN]].
      * rewrite (Set_fixed_ok key values n s Hd Hl EN).
        right. exists n. by repeat split.
      * rewrite (Set_fixed_zero key values s Hd Hl Hz). left. by split.
    + rewrite (Set_fixed_mismatch key values s Hd Hl). left. by split.
Qed.

(** A non-zero dimension is left as it is by [Set]. *)
Lemma Set_dim_fixed (key : string) (values : list float32) (s : Storage) :
  dim s ≠ 0 -> dim (Set_ key values s).2 = dim s.
Proof.
  intros Hd.
  destruct (Z.eq_dec (len values) (dim s)) as [Hl|Hl].
  - destruct (Normalize_cases values) as [(Hnz & n & EN)|[Hz EN]].
    + by rewrite (Set_fixed_ok key values n s Hd Hl EN).
    + by rewrite (Set_fixed_zero key values s Hd Hl Hz).
  - by rewrite (Set_fixed_mismatch key values s Hd Hl).
Qed.

(** *** The invariant *)

Lemma store_inv_New : store_inv New.
Proof.
  split; [reflexivity|]. intros key vec (data & Hin & Hk).
  apply elem_of_replicate_inv in Hin as ->. by rewrite lookup_empty in Hk.
Qed.

Lemma store_inv_Set (key : string) (values : list float32) (s : Storage) :
  store_inv s -> store_inv (Set_ key values s).2.
Proof.
  intros [Hlen Hinv].
  destruct (Set_shards_or_store key values s) as [[Esh Herr]|(n & EN & _ & Ed & Esh)].
  - split; [by rewrite Esh|].
    intros k vec (data & Hin & Hk). rewrite Esh in Hin.
    destruct (Hinv k vec) as [Hv Hd]; [by exists data|].
    by rewrite (Set_dim_fixed key values s Hd).
  - destruct (Normalize_inl _ _ EN) as (Hnz & Hln & Hne).
    assert (Hpos : dim (Set_ key values s).2 ≠ 0).
    { rewrite <- Ed. unfold len. destruct values; [done|]. simpl. lia. }
    split; [by rewrite Esh, length_alter|].
    intros k vec (data & Hin & Hk). rewrite Esh in Hin.
    apply elem_of_alter in Hin as [Hin|(data0 & E0 & ->)].
    + destruct (Hinv k vec) as [Hv Hd]; [by exists data|].
      by rewrite (Set_dim_fixed key values s Hd).
    + split; [|done].
      destruct (decide (key = k)) as [->|Hne'].
      * rewrite lookup_insert_eq in Hk. injection Hk as <-.
        rewrite <- Ed. unfold len. by rewrite Hln.
      * rewrite lookup_insert_ne in Hk by done.
        destruct (Hinv k vec) as [Hv Hd].
        { exists data0. split; [|done]. apply list_elem_of_lookup. eauto. }
        by rewrite (Set_dim_fixed key values s Hd).
Qed.

Lemma store_inv_Delete (key : string) (s : Storage) :
  store_inv s -> store_inv (Delete key s).2.
Proof.
  intros [Hlen Hinv]. unfold Delete.
  destruct (shardAt s (getShard key) !! key); [|done]. cbn [snd].
  split; [by cbn; rewrite length_alter|].
  intros k vec (data & Hin & Hk). cbn in *.
  apply elem_of_alter in Hin as [Hin|(data0 & E0 & ->)].
  - apply (Hinv k vec). by exists data.
  - apply lookup_delete_Some in Hk as [_ Hk].
    apply (Hinv k vec). exists data0. split; [|done].
    apply list_elem_of_lookup. eauto.
Qed.

Lemma Clear_shards (s : Storage) (data : shard) :
  data ∈ shards (Clear s) -> data = ∅.
Proof.
  unfold Clear. cbn. intros Hin. apply list_elem_of_fmap in Hin as (? & -> & _).
  done.
Qed.

Lemma store_inv_Clear (s : Storage) : store_inv s -> store_inv (Clear s).
Proof.
  intros [Hlen _]. split; [by cbn; rewrite length_map|].
  intros k vec (data & Hin & Hk). apply Clear_shards in Hin as ->.
  by rewrite lookup_empty in Hk.
Qed.

Lemma store_inv_exec (o : op) (s : Storage) : store_inv s -> store_inv (exec o s).
Proof.
  destruct o; cbn [exec]; auto using store_inv_Set, store_inv_Delete, store_inv_Clear.
Qed.

Lemma reachable_inv (s : Storage) : reachable s -> store_inv s.
Proof. induction 1; auto using store_inv_New, store_inv_exec. Qed.

End StoreProperties.

(** ** Search *)

Section SearchOutcome.
Import vector order storage.

Lemma arrivals_stored (s : Storage) (arrivals : list (list (string * list float32)))
    (key : string) (vec : list float32) :
  arrivals_of s arrivals ->
  (∃ entries, entries ∈ arrivals ∧ (key, vec) ∈ entries) ↔ stored s key vec.
Proof.
  intros (scans & HF & Hperm). split.
  - intros (entries & Hin & Hkv). rewrite Hperm in Hin.
    apply list_elem_of_lookup in Hin as [i Hi].
    destruct (Forall2_lookup_r _ _ _ _ _ HF Hi) as (data & Hd & Hp).
    exists data. split; [apply list_elem_of_lookup; eauto|].
    apply elem_of_map_to_list. by rewrite <- Hp.
  - intros (data & Hin & Hk).
    apply list_elem_of_lookup in Hin as [i Hi].
    destruct (Forall2_lookup_l _ _ _ _ _ HF Hi) as (entries & He & Hp).
    exists entries. split.
    + rewrite Hperm. apply list_elem_of_lookup. eauto.
    + rewrite Hp. by apply elem_of_map_to_list.
Qed.

Lemma concat_length_perm {A : Type} (l l' : list (list A)) :
  l ≡ₚ l' -> length (concat l) = length (concat l').
Proof.
  induction 1; cbn [concat]; rewrite ?length_app; lia.
Qed.

Lemma Count_fold (l : list shard) (scans : list (list (string * list float32))) :
  Forall2 (fun (data : shard) entries => entries ≡ₚ map_to_list data) l scans ->
  ∀ acc, fold_left (fun count data => count + Z.of_nat (size data)) l acc
         = acc + Z.of_nat (length (concat scans)).
Proof.
  induction 1 as [|data entries l scans Hp HF IH]; intros acc; cbn [fold_left concat].
  - simpl. lia.
  - rewrite IH, length_app, Hp, length_map_to_list. lia.
Qed.

Lemma arrivals_Count (s : Storage) (arrivals : list (list (string * list float32))) :
  arrivals_of s arrivals -> Count s = Z.of_nat (length (concat arrivals)).
Proof.
  intros (scans & HF & Hperm). unfold Count.
  rewrite (Count_fold _ _ HF), (concat_length_perm _ _ Hperm). lia.
Qed.

Lemma arrivals_fit (s : Storage) (arrivals : list (list (string * list float32)))
    (nq : list float32) :
  arrivals_of s arrivals ->
  (∀ key vec, stored s key vec -> length vec = length nq) ->
  Forall (Forall (fits nq)) arrivals.
Proof.
  intros Ha Hs. apply Forall_forall. intros entries Hin.
  apply Forall_forall. intros [key vec] Hkv. apply (Hs key).
  apply (arrivals_stored s arrivals key vec Ha). eauto.
Qed.

Lemma arrivals_misfit (s : Storage) (arrivals : list (list (string * list float32)))
    (nq : list float32) (key : string) (vec : list float32) :
  arrivals_of s arrivals -> stored s key vec -> length vec ≠ length nq ->
  Exists (Exists (fun entry => ¬ fits nq entry)) arrivals.
Proof.
  intros Ha Hs Hne.
  apply (arrivals_stored s arrivals key vec Ha) in Hs as (entries & Hin & Hkv).
  apply Exists_exists. exists entries. split; [done|].
  apply Exists_exists. by exists (key, vec).
Qed.

(** What [Search] does once the query is normalized. *)
Lemma SearchOn_normalized (arrivals : list (list (string * list float32)))
    (q nq : list float32) (k : Z) :
  1 ≤ k -> Normalize q = inl nq ->
  (Exists (Exists (fun entry => ¬ fits nq entry)) arrivals ->
     SearchOn arrivals q k = Fails ErrDimensionMismatch)
  ∧ (Forall (Forall (fits nq)) arrivals ->
     ∃ rs h,
       SearchOn arrivals q k = Returns rs
       ∧ merge_results k (map (candidate nq) (concat arrivals)) [] = Some h
       ∧ rs ≡ₚ h
       ∧ (heap_inv h -> Forall scored h ->
            StronglySorted (fun a b => sle b a) rs)).
Proof.
  intros Hk Hn. unfold SearchOn. rewrite Hn.
  change (heap.Init []) with (@nil SearchResult). split.
  - intros HE. by rewrite merge_channel_misfit.
  - intros HF.
    destruct (merge_channel_fits k nq arrivals Hk HF []) as (h & E1 & E2).
    rewrite E1.
    destruct (drain_spec h) as (rs & E3 & Hp & Hs). rewrite E3.
    by exists rs, h.
Qed.

Lemma SearchOn_zero (arrivals : list (list (string * list float32)))
    (q : list float32) (k : Z) :
  eqb (Magnitude q) zero = true ->
  SearchOn arrivals q k = Fails (ErrWrap "failed to normalize query" ErrZeroVector).
Proof. intros Hz. unfold SearchOn, Normalize. by rewrite Hz. Qed.

End SearchOutcome.

(** ** The claims about the store *)

Section StoreClaims.
Import vector order storage.

Lemma Get_shards (s s' : Storage) (key : string) :
  shards s' = shards s -> Get key s' = Get key s.
Proof. intros E. unfold Get, shardAt. by rewrite E. Qed.

Lemma Count_shards (s s' : Storage) : shards s' = shards s -> Count s' = Count s.
Proof. intros E. unfold Count. by rewrite E. Qed.

Lemma Delete_dim (key : string) (s : Storage) : dim (Delete key s).2 = dim s.
Proof. unfold Delete. by destruct (shardAt s (getShard key) !! key). Qed.

Lemma Count_Clear (s : Storage) : Count (Clear s) = 0.
Proof.
  unfold Count, Clear. cbn [shards].
  generalize (shards s). intros l.
  assert (G : ∀ acc, fold_left (fun count (data : shard) => count + Z.of_nat (size data))
                       (map (fun _ : shard => (∅ : shard)) l) acc = acc).
  { induction l as [|x l IH]; intros acc; cbn [map fold_left]; [done|].
    rewrite IH, map_size_empty. lia. }
  apply G.
Qed.

Lemma Get_Clear (key : string) (s : Storage) : Get key (Clear s) = None.
Proof.
  unfold Get, shardAt, Clear. cbn [shards].
  rewrite list_lookup_total_alt, list_lookup_fmap.
  by destruct (shards s !! getShard key).
Qed.

Lemma Get_store (s : Storage) (key : string) (vec : list float32) :
  length (shards s) = ShardCount ->
  Get key (store s (getShard key) key vec) = Some vec.
Proof.
  intros Hlen. unfold Get, shardAt, store. cbn [shards].
  rewrite list_lookup_total_alt, list_lookup_alter_eq.
  destruct (lookup_lt_is_Some_2 (shards s) (getShard key)) as [data ->].
  { rewrite Hlen. apply getShard_lt. }
  simpl. apply lookup_insert_eq.
Qed.

(** Where the operations run one after another, the dimension is kept.
    In every state that a sequence of operations reaches from the new
    store, and in the state that any further operation leaves, a stored
    vector has the length [dim], which is not 0; a Set that succeeds
    leaves the length of its vector as the dimension; a dimension that
    is not zero is kept by every operation but Clear, which puts it
    back to 0; and only a Set takes the dimension away from 0. *)
Lemma serial_dimension_invariant (s : Storage) :
  reachable s ->
  store_inv s
  ∧ (∀ o, reachable (exec o s) ∧ store_inv (exec o s))
  ∧ (∀ key values, (Set_ key values s).1 = None ->
       dim (Set_ key values s).2 = len values)
  ∧ (∀ o, dim s ≠ 0 -> o ≠ OpClear -> dim (exec o s) = dim s)
  ∧ dim (exec OpClear s) = 0
  ∧ (∀ o, dim s = 0 -> dim (exec o s) ≠ 0 -> ∃ key values, o = OpSet key values).
Proof.
  intros Hr. split; [by apply reachable_inv|].
  split; [|split; [|split; [|split]]].
  - intros o. assert (Hr' : reachable (exec o s)) by by constructor.
    split; [done | by apply reachable_inv].
  - intros key values Herr.
    destruct (Set_shards_or_store key values s) as [[_ Hne]|(n & _ & _ & Ed & _)];
      [done | by symmetry].
  - intros o Hd Ho. destruct o; cbn [exec]; try done.
    + by apply Set_dim_fixed.
    + apply Delete_dim.
  - reflexivity.
  - intros o Hd Hd'. destruct o; cbn [exec] in Hd'; try done.
    + eauto.
    + by rewrite Delete_dim in Hd'.
Qed.

(** C5 — Set is atomic on a dimension mismatch.  When the dimension is
    fixed to d, not 0, a Set of a vector whose length is not d fails with
    the dimension-mismatch error and returns the store as it was: every
    entry, also one under the same key, is what Get returned before, and
    the dimension is still d. *)
Theorem Set_dimension_mismatch (s : Storage) (key : string) (values : list float32) :
  dim s ≠ 0 -> len values ≠ dim s ->
  Set_ key values s = (Some (ErrSetDimension (dim s) (len values)), s)
  ∧ (∀ k, Get k (Set_ key values s).2 = Get k s)
  ∧ dim (Set_ key values s).2 = dim s.
Proof.
  intros Hd Hl. by rewrite (Set_fixed_mismatch key values s Hd Hl).
Qed.

Lemma Set_dimension_mismatch_witness :
  dim example.k1 ≠ 0 ∧ len [lit 1 0; lit 0 0] ≠ dim example.k1
  ∧ Set_ "k2" [lit 1 0; lit 0 0] example.k1
    = (Some (ErrSetDimension (dim example.k1) (len [lit 1 0; lit 0 0])), example.k1).
Proof.
  assert (H1 : dim example.k1 ≠ 0) by (vm_compute; discriminate).
  assert (H2 : len [lit 1 0; lit 0 0] ≠ dim example.k1) by (vm_compute; discriminate).
  split; [exact H1|]. split; [exact H2|].
  exact (proj1 (Set_dimension_mismatch example.k1 "k2" [lit 1 0; lit 0 0] H1 H2)).
Defined.

(** C8, as amended — Clear leaves the empty store with the dimension
    unset: every shard is empty, Count is 0, Get finds no key and the
    dimension is 0; a Set that follows succeeds for every vector whose
    magnitude is not zero, whatever its length below 2^31, and fixes
    that length as the new dimension. *)
Theorem Clear_then_Set (s : Storage) :
  reachable s ->
  (∀ data, data ∈ shards (Clear s) -> data = ∅)
  ∧ Count (Clear s) = 0
  ∧ (∀ key, Get key (Clear s) = None)
  ∧ dim (Clear s) = 0
  ∧ (∀ key values, nonzero values -> len values < 2 ^ 31 ->
       ∃ normalized,
         Normalize values = inl normalized
         ∧ (Set_ key values (Clear s)).1 = None
         ∧ dim (Set_ key values (Clear s)).2 = len values
         ∧ Get key (Set_ key values (Clear s)).2 = Some normalized).
Proof.
  intros Hr. split; [apply Clear_shards|]. split; [apply Count_Clear|].
  split; [intros key; apply Get_Clear|]. split; [reflexivity|].
  intros key values Hnz Hlen.
  exists (map (fun val => div val (Magnitude values)) values).
  pose proof (Normalize_nonzero values Hnz) as EN.
  split; [done|].
  rewrite (Set_unset key values (Clear s)) by reflexivity. cbn zeta.
  rewrite int32_small by (unfold len in *; lia).
  rewrite Z.eqb_refl. cbn [negb]. rewrite EN. cbn [fst snd].
  split; [done|]. split; [done|].
  apply Get_store. cbn [shards].
  apply (store_inv_Clear s (reachable_inv s Hr)).
Qed.

Lemma Clear_then_Set_witness :
  reachable example.k1
  ∧ nonzero [lit 3 0; lit 4 0] ∧ len [lit 3 0; lit 4 0] < 2 ^ 31
  ∧ dim (Set_ "k" [lit 3 0; lit 4 0] (Clear example.k1)).2 = 2.
Proof.
  assert (R : reachable example.k1) by (apply reach_exec, reach_New).
  assert (H1 : nonzero [lit 3 0; lit 4 0]) by (vm_compute; reflexivity).
  assert (H2 : len [lit 3 0; lit 4 0] < 2 ^ 31) by (vm_compute; reflexivity).
  split; [exact R|]. split; [exact H1|]. split; [exact H2|].
  destruct (proj2 (proj2 (proj2 (proj2 (Clear_then_Set example.k1 R))))
              "k"%string [lit 3 0; lit 4 0] H1 H2) as (n & _ & _ & E & _).
  exact E.
Defined.

(** The claim C8 as it is written fails: after Clear, a Set of the
    empty vector, or of a vector of zeros, is rejected. *)
Lemma Clear_then_Set_rejected :
  (Set_ "k" [] (Clear example.k1)).1
    = Some (ErrWrap "failed to normalize vector" ErrZeroVector)
  ∧ (Set_ "z" [lit 0 0; lit 0 0; lit 0 0] (Clear example.k1)).1
    = Some (ErrWrap "failed to normalize vector" ErrZeroVector).
Proof. split; vm_compute; reflexivity. Qed.

(** A Set of a vector of zeros is rejected and stores nothing: the
    shards are what they were, so Get and Count return what they
    returned before.  When the dimension is fixed the whole store is
    what it was, and the error is the zero-vector error if the length is
    the dimension, the dimension-mismatch error otherwise.  When the
    dimension is unset the store is left with [int32(len(values))] as
    its dimension, and the error is the zero-vector error unless the
    conversion to int32 has changed the length. *)
Lemma Set_all_zero (s : Storage) (key : string) (values : list float32) :
  all_zero values ->
  (Set_ key values s).1 ≠ None
  ∧ shards (Set_ key values s).2 = shards s
  ∧ (∀ k, Get k (Set_ key values s).2 = Get k s)
  ∧ Count (Set_ key values s).2 = Count s
  ∧ (dim s ≠ 0 ->
       (Set_ key values s).2 = s
       ∧ (Set_ key values s).1 =
           Some (if Z.eqb (len values) (dim s)
                 then ErrWrap "failed to normalize vector" ErrZeroVector
                 else ErrSetDimension (dim s) (len values)))
  ∧ (dim s = 0 ->
       (Set_ key values s).2 = {| shards := shards s; dim := int32 (len values) |}
       ∧ (Set_ key values s).1 =
           Some (if Z.eqb (len values) (int32 (len values))
                 then ErrWrap "failed to normalize vector" ErrZeroVector
                 else ErrSetDimension (int32 (len values)) (len values))).
Proof.
  intros HZ. pose proof (Normalize_all_zero values HZ) as EN.
  assert (Esh : shards (Set_ key values s).2 = shards s
                ∧ (Set_ key values s).1 ≠ None).
  { destruct (Set_shards_or_store key values s) as [[? ?]|(n & En & _)]; [done|].
    congruence. }
  destruct Esh as [Esh Herr].
  split; [done|]. split; [done|].
  split; [intros k; by apply Get_shards|]. split; [by apply Count_shards|].
  split.
  - intros Hd. destruct (Z.eqb_spec (len values) (dim s)) as [Hl|Hl].
    + rewrite (Set_fixed_zero key values s Hd Hl); [done|].
      by rewrite Magnitude_all_zero.
    + by rewrite (Set_fixed_mismatch key values s Hd Hl).
  - intros Hd. rewrite (Set_unset key values s Hd). cbn zeta.
    destruct (Z.eqb (len values) (int32 (len values))); cbn [negb]; [|done].
    by rewrite EN.
Qed.

(** Where the dimension is fixed and is not the length of the vector,
    the test of the length comes first: the error of a vector of zeros
    is the dimension mismatch, and the store is what it was. *)
Lemma Set_all_zero_mismatch :
  all_zero [lit 0 0; lit 0 0]
  ∧ Set_ "z" [lit 0 0; lit 0 0] example.k1
    = (Some (ErrSetDimension 3 2), example.k1).
Proof. split; [repeat constructor | vm_compute; reflexivity]. Qed.

(** C3 — Set on a vector of zeros, where the dimension is unset: the
    call fails with the zero-vector error and stores nothing, so Get
    returns what it returned before, but it does not leave the store as
    it was.  The compare-and-swap comes before the normalization: the
    store that the failing call leaves has the length of the vector as
    its dimension, not 0, and every later Set of a vector of another
    length is refused with the dimension-mismatch error.  The claim's
    other half holds: see [Set_all_zero] for the stores whose dimension
    is fixed. *)
Theorem Set_all_zero_fixes_dimension
    (s : Storage) (key : string) (values : list float32) :
  dim s = 0 -> all_zero values -> 0 < len values < 2 ^ 31 ->
  Set_ key values s
    = (Some (ErrWrap "failed to normalize vector" ErrZeroVector),
       {| shards := shards s; dim := len values |})
  ∧ dim (Set_ key values s).2 ≠ dim s
  ∧ (∀ k, Get k (Set_ key values s).2 = Get k s)
  ∧ (∀ key' values', len values' ≠ len values ->
       Set_ key' values' (Set_ key values s).2
         = (Some (ErrSetDimension (len values) (len values')),
            (Set_ key values s).2)).
Proof.
  intros Hd HZ Hlen.
  assert (E : Set_ key values s
              = (Some (ErrWrap "failed to normalize vector" ErrZeroVector),
                 {| shards := shards s; dim := len values |})).
  { rewrite (Set_unset key values s Hd). cbn zeta.
    rewrite int32_small by lia. rewrite Z.eqb_refl. cbn [negb].
    by rewrite (Normalize_all_zero values HZ). }
  rewrite E. cbn [fst snd dim].
  split; [done|]. split; [rewrite Hd; lia|].
  split; [intros k; by apply Get_shards|].
  intros key' values' Hne.
  apply Set_fixed_mismatch; cbn [dim]; [lia | done].
Qed.

Lemma Set_all_zero_fixes_dimension_witness :
  dim New = 0
  ∧ all_zero [lit 0 0; lit 0 0; lit 0 0]
  ∧ 0 < len [lit 0 0; lit 0 0; lit 0 0] < 2 ^ 31
  ∧ Set_ "z" [lit 0 0; lit 0 0; lit 0 0] New
    = (Some (ErrWrap "failed to normalize vector" ErrZeroVector),
       {| shards := shards New; dim := 3 |})
  ∧ Set_ "a" [lit 1 0; lit 0 0] (Set_ "z" [lit 0 0; lit 0 0; lit 0 0] New).2
    = (Some (ErrSetDimension 3 2), (Set_ "z" [lit 0 0; lit 0 0; lit 0 0] New).2).
Proof.
  assert (H1 : dim New = 0) by reflexivity.
  assert (H2 : all_zero [lit 0 0; lit 0 0; lit 0 0]) by (repeat constructor).
  assert (H3 : 0 < len [lit 0 0; lit 0 0; lit 0 0] < 2 ^ 31)
    by (split; reflexivity).
  split; [exact H1|]. split; [exact H2|]. split; [exact H3|].
  destruct (Set_all_zero_fixes_dimension New "z" [lit 0 0; lit 0 0; lit 0 0]
              H1 H2 H3) as (E & _ & _ & Hlater).
  split; [exact E|].
  exact (Hlater "a"%string [lit 1 0; lit 0 0] ltac:(discriminate)).
Defined.

End StoreClaims.

(** ** Set and Clear in several goroutines *)

Section Interleaving.
Import vector order storage interleaving.

Lemma turn_lookup (gs : list goroutine) (s : Storage) (i : nat) (g : goroutine) :
  gs !! i = Some g ->
  turn (gs, s) i = (<[i := (step g s).1]> gs, (step g s).2).
Proof.
  intros E. unfold turn. cbn [fst snd]. rewrite E. by destruct (step g s).
Qed.

(** The turns of one goroutine, one after the other, are its
    actions. *)
Lemma run_alone (n i : nat) (gs : list goroutine) (s : Storage) (g : goroutine) :
  gs !! i = Some g ->
  run (replicate n i) (gs, s) = (<[i := (alone n g s).1]> gs, (alone n g s).2).
Proof.
  revert gs s g. induction n as [|n IH]; intros gs s g E.
  - cbn. by rewrite list_insert_id.
  - cbn [replicate alone]. unfold run in *. cbn [fold_left].
    rewrite (turn_lookup gs s i g E).
    destruct (step g s) as [g' s'] eqn:Es. cbn [fst snd].
    rewrite (IH (<[i := g']> gs) s' g').
    + by rewrite list_insert_insert_eq.
    + apply list_lookup_insert_eq. by eapply lookup_lt_Some.
Qed.

(** A call of [Set] whose actions no other goroutine separates is
    [Set_]. *)
Lemma Set_alone (key : string) (values : list float32) (s : Storage) :
  alone SetActions (SetLoad key values) s
  = (Returned (Set_ key values s).1, (Set_ key values s).2).
Proof.
  unfold Set_, SetActions. cbn [alone step].
  destruct (Z.eqb (dim s) 0) eqn:E0.
  - cbn [alone step]. unfold SetCheck.
    destruct (negb (Z.eqb (len values) (dim (CompareAndSwap s 0 (int32 (len values))))));
      [reflexivity|].
    by destruct (Normalize values).
  - unfold SetCheck.
    destruct (negb (Z.eqb (len values) (dim s))); [reflexivity|].
    by destruct (Normalize values).
Qed.

(** A call of [Clear] that no other goroutine separates is [Clear]. *)
Lemma Clear_alone (s : Storage) :
  length (shards s) = ShardCount ->
  alone ClearActions (ClearLoop 0) s = (Returned None, Clear s).
Proof.
  destruct s as [l d]. cbn [shards]. unfold ShardCount. intros Hl.
  do 32 (destruct l as [|? l]; [discriminate Hl|]).
  destruct l; [|discriminate Hl].
  reflexivity.
Qed.

(** A schedule that runs every call to its end before the next one is
    the sequence of the operations. *)
Lemma run_Set (i : nat) (gs : list goroutine) (s : Storage)
    (key : string) (values : list float32) :
  gs !! i = Some (SetLoad key values) ->
  run (replicate SetActions i) (gs, s)
  = (<[i := Returned (Set_ key values s).1]> gs, exec (OpSet key values) s).
Proof. intros E. by rewrite (run_alone _ _ _ _ _ E), Set_alone. Qed.

Lemma run_Clear (i : nat) (gs : list goroutine) (s : Storage) :
  gs !! i = Some (ClearLoop 0) -> length (shards s) = ShardCount ->
  run (replicate ClearActions i) (gs, s)
  = (<[i := Returned None]> gs, exec OpClear s).
Proof. intros E Hl. by rewrite (run_alone _ _ _ _ _ E), Clear_alone. Qed.

(** *** Sets alone keep the dimension *)

Lemma SetCheck_tested (key : string) (values : list float32) (d : Z) :
  tested d (SetCheck key values d).
Proof.
  unfold SetCheck.
  destruct (Z.eqb_spec (len values) d) as [Hl|Hl]; cbn [negb]; [|done].
  destruct (Normalize values) as [normalized|e] eqn:EN; [|done].
  destruct (Normalize_inl _ _ EN) as (Hnz & Hln & _). cbn [tested].
  split.
  - unfold len in *. by rewrite Hln.
  - subst d. unfold len. destruct values; [done|]. simpl. lia.
Qed.

Lemma store_inv_store (s : Storage) (key : string) (normalized : list float32) :
  store_inv s -> len normalized = dim s -> dim s ≠ 0 ->
  store_inv (store s (getShard key) key normalized).
Proof.
  intros [Hlen Hinv] Hl Hd. split; [by cbn; rewrite length_alter|].
  intros k vec (data & Hin & Hk). cbn [store shards dim] in *.
  apply elem_of_alter in Hin as [Hin|(data0 & E0 & ->)].
  - apply (Hinv k vec). by exists data.
  - destruct (decide (key = k)) as [->|Hne].
    + rewrite lookup_insert_eq in Hk. by injection Hk as <-.
    + rewrite lookup_insert_ne in Hk by done.
      apply (Hinv k vec). exists data0. split; [|done].
      apply list_elem_of_lookup. eauto.
Qed.

Lemma store_inv_dim (s : Storage) (d : Z) :
  store_inv s -> dim s = 0 -> store_inv {| shards := shards s; dim := d |}.
Proof.
  intros [Hlen Hinv] Hd. split; [done|].
  intros k vec Hs. by destruct (Hinv k vec Hs).
Qed.

Lemma Forall_tested_insert (d : Z) (gs : list goroutine) (i : nat) (g : goroutine) :
  Forall (tested d) gs -> tested d g -> Forall (tested d) (<[i := g]> gs).
Proof. intros HF Hg. by apply Forall_insert. Qed.

Lemma Set_inv_turn (c : system) (i : nat) : Set_inv c -> Set_inv (turn c i).
Proof.
  destruct c as [gs s]. intros [Hs HF]. cbn [fst snd] in *.
  destruct (gs !! i) as [g|] eqn:E; [|unfold turn; cbn [fst]; by rewrite E].
  rewrite (turn_lookup gs s i g E).
  pose proof (proj1 (Forall_lookup _ _) HF i g E) as Hg.
  destruct g as [key values|key values|key values|key normalized|j|err];
    cbn [step].
  - destruct (Z.eqb (dim s) 0); cbn [fst snd];
      (split; [done|]); apply Forall_tested_insert; try done.
    apply SetCheck_tested.
  - cbn [fst snd]. unfold CompareAndSwap.
    destruct (Z.eqb_spec (dim s) 0) as [Hd|Hd].
    + split; [by apply store_inv_dim|]. cbn [dim].
      apply Forall_tested_insert; [|done].
      eapply Forall_impl; [exact HF|].
      intros g Hg'. destruct g; try done. cbn [tested] in Hg'. by destruct Hg'.
    + split; [done|]. by apply Forall_tested_insert.
  - cbn [fst snd]. split; [done|].
    apply Forall_tested_insert; [done | apply SetCheck_tested].
  - cbn [fst snd]. cbn [tested] in Hg. destruct Hg as [Hl Hd].
    split; [by apply store_inv_store|]. by apply Forall_tested_insert.
  - done.
  - cbn [fst snd]. split; [done|]. by apply Forall_tested_insert.
Qed.

(** As long as no goroutine calls [Clear], the calls of [Set] keep the
    invariant of the store in every order of their actions. *)
Lemma Set_inv_run (schedule : list nat) (c : system) :
  Set_inv c -> Set_inv (run schedule c).
Proof.
  revert c. induction schedule as [|i schedule IH]; intros c Hc; [done|].
  unfold run in *. cbn [fold_left]. by apply IH, Set_inv_turn.
Qed.

Lemma Sets_keep_invariant (schedule : list nat) (calls : list (string * list float32))
    (s : Storage) :
  reachable s ->
  store_inv (run schedule (map (fun call => SetLoad call.1 call.2) calls, s)).2.
Proof.
  intros Hr.
  apply (Set_inv_run schedule (map (fun call => SetLoad call.1 call.2) calls, s)).
  split; [by apply reachable_inv|]. cbn [fst snd].
  induction calls as [|call calls IH]; constructor; done.
Qed.

(** C1 — The global-dimension invariant, where a Set races a Clear.
    The store holds k1, its dimension is 3, and every stored vector has
    that length.  One goroutine calls Set(b, [1,0,0]); it loads the
    dimension 3, passes the test of the length and normalizes, and is
    at the lock of its shard.  Another goroutine calls Clear and then
    Set(c, [1,0]), which fixes the dimension 2.  The first goroutine
    takes the lock and writes.  Every call has returned without an
    error, and the state that is reached has the dimension 2, not
    zero, and holds under b a vector of length 3: the invariant is not
    preserved.  A search of that store with a query of length 2 fails
    with the dimension-mismatch error. *)
Theorem Set_races_Clear :
  store_inv example.k1
  ∧ dim example.k1 = 3
  ∧ (run late_write (racing, example.k1)).1
    = [Returned None; Returned None; Returned None]
  ∧ dim (run late_write (racing, example.k1)).2 = 2
  ∧ Get "b" (run late_write (racing, example.k1)).2
    = Some [lit 1 0; lit 0 0; lit 0 0]
  ∧ Get "c" (run late_write (racing, example.k1)).2
    = Some [lit 1 0; lit 0 0]
  ∧ ¬ (dim (run late_write (racing, example.k1)).2 ≠ 0 ->
       ∀ key vec, stored (run late_write (racing, example.k1)).2 key vec ->
                  len vec = dim (run late_write (racing, example.k1)).2)
  ∧ Search (run late_write (racing, example.k1)).2 [lit 1 0; lit 0 0] 1
    = Fails ErrDimensionMismatch.
Proof.
  split; [apply reachable_inv, reach_exec, reach_New|].
  split; [reflexivity|].
  split; [vm_compute; reflexivity|].
  split; [vm_compute; reflexivity|].
  assert (Eb : Get "b" (run late_write (racing, example.k1)).2
               = Some [lit 1 0; lit 0 0; lit 0 0]) by (vm_compute; reflexivity).
  split; [exact Eb|].
  split; [vm_compute; reflexivity|].
  split; [|vm_compute; reflexivity].
  intros H.
  assert (Hd : dim (run late_write (racing, example.k1)).2 ≠ 0)
    by (vm_compute; discriminate).
  specialize (H Hd "b"%string [lit 1 0; lit 0 0; lit 0 0]
                (shardAt_stored _ (getShard "b") _ _ Eb)).
  vm_compute in H. discriminate H.
Qed.

(** The same with a Set that no other goroutine separates: it runs
    when Clear has emptied the shards and has not yet stored the 0.
    Clear returns and leaves b stored with the dimension 0; the Set of
    c then fixes the dimension 2. *)
Lemma Set_within_Clear :
  (run write_in_Clear (racing, example.k1)).1
    = [Returned None; Returned None; Returned None]
  ∧ dim (run write_in_Clear (racing, example.k1)).2 = 2
  ∧ Get "b" (run write_in_Clear (racing, example.k1)).2
    = Some [lit 1 0; lit 0 0; lit 0 0].
Proof. repeat split; vm_compute; reflexivity. Qed.

End Interleaving.

(** ** The claims about Search *)

Section SearchClaims.
Import vector order storage.

Lemma StronglySorted_lookup_lt {A : Type} (R : A -> A -> Prop) (l : list A) :
  StronglySorted R l ->
  ∀ i j x y, (i < j)%nat -> l !! i = Some x -> l !! j = Some y -> R x y.
Proof.
  induction 1 as [|a l HS IH HF]; intros i j x y Hij Hi Hj; [done|].
  destruct j as [|j]; [lia|]. cbn in Hj.
  destruct i as [|i]; cbn in Hi.
  - injection Hi as <-. eapply Forall_lookup_1 in HF; eauto.
  - eapply (IH i j); eauto. lia.
Qed.

Lemma descending_sorted (rs : list SearchResult) :
  Forall scored rs -> StronglySorted (fun a b => sle b a) rs -> descending rs.
Proof.
  intros HF HS i j x y Hij Hi Hj.
  assert (Sx : scored x) by eauto using scored_lookup.
  assert (Sy : scored y) by eauto using scored_lookup.
  apply not_ltb_leb; auto.
  destruct (decide (i = j)) as [->|Hne].
  - assert (x = y) as -> by congruence. apply ltb_irrefl.
  - apply (StronglySorted_lookup_lt _ rs HS i j x y); auto. lia.
Qed.

Lemma default_arrivals (s : Storage) : arrivals_of s (map map_to_list (shards s)).
Proof.
  exists (map map_to_list (shards s)). split; [|done].
  induction (shards s) as [|data l IH]; constructor; auto.
Qed.

(** C10 — The merge reads the root of a heap that is not empty.  For
    every store, every order in which its entries reach the merge and
    every k >= 1, the inner loop of the merge never reads the root of,
    nor pops from, an empty heap, whatever the heap it starts from, and
    Search does not panic.  The bound on k is needed: with k <= 0 the
    first candidate reads the root of the empty heap. *)
Theorem Search_root_in_bounds (s : Storage)
    (arrivals : list (list (string * list float32))) (q : list float32) (k : Z) :
  arrivals_of s arrivals -> 1 ≤ k ->
  (∀ rs h, ∃ h', merge_results k rs h = Some h')
  ∧ SearchOn arrivals q k ≠ Panics
  ∧ (∀ k0 res rs, k0 ≤ 0 -> merge_results k0 (res :: rs) [] = None).
Proof.
  intros Ha Hk. split; [|split].
  - intros rs h. destruct (merge_results_spec k rs Hk h) as (h' & E & _). eauto.
  - destruct (Normalize_cases q) as [(Hnz & nq & EN)|[Hz EN]].
    + destruct (SearchOn_normalized arrivals q nq k Hk EN) as [Hbad Hgood].
      destruct (Forall_Exists_dec _ _ (fits_dec nq) arrivals) as [HF|HE].
      * destruct (Hgood HF) as (rs & h & -> & _). done.
      * by rewrite Hbad.
    + by rewrite (SearchOn_zero arrivals q k Hz).
  - intros k0 res rs Hk0. cbn [merge_results]. unfold Len. cbn [length].
    by destruct (Z.ltb_spec (Z.of_nat 0) k0); [lia|].
Qed.

Lemma Search_root_in_bounds_witness :
  arrivals_of example.tied (map map_to_list (shards example.tied)) ∧ 1 ≤ 2
  ∧ Search example.tied [lit 1 0; lit 0 0] 2 ≠ Panics.
Proof.
  assert (H1 : arrivals_of example.tied (map map_to_list (shards example.tied)))
    by apply default_arrivals.
  assert (H2 : 1 ≤ 2) by lia.
  split; [exact H1|]. split; [exact H2|].
  exact (proj1 (proj2
    (Search_root_in_bounds example.tied _ [lit 1 0; lit 0 0] 2 H1 H2))).
Defined.

(** Without [k >= 1] the root is read on the empty heap: with [k = 0]
    the first candidate finds [h.Len() < k] false. *)
Lemma Search_k0_panics : Search example.k1 [lit 1 0; lit 0 0; lit 0 0] 0 = Panics.
Proof. vm_compute. reflexivity. Qed.

(** C4, as amended — For k > 0 Search fails in two cases and in no
    other: with the zero-vector error when the magnitude of the query
    is zero; otherwise with the dimension-mismatch error of DotProduct
    when the store holds a vector whose length is not that of the
    query.  Otherwise it returns a sequence of results. *)
Theorem Search_failures (s : Storage)
    (arrivals : list (list (string * list float32))) (q : list float32) (k : Z) :
  arrivals_of s arrivals -> 0 < k ->
  (eqb (Magnitude q) zero = true ->
     SearchOn arrivals q k
       = Fails (ErrWrap "failed to normalize query" ErrZeroVector))
  ∧ (nonzero q ->
     (∃ key vec, stored s key vec ∧ length vec ≠ length q) ->
     SearchOn arrivals q k = Fails ErrDimensionMismatch)
  ∧ (nonzero q ->
     (∀ key vec, stored s key vec -> length vec = length q) ->
     ∃ rs, SearchOn arrivals q k = Returns rs).
Proof.
  intros Ha Hk. split; [apply SearchOn_zero|].
  split; intros Hnz Hs.
  - pose proof (Normalize_nonzero q Hnz) as EN.
    destruct (SearchOn_normalized arrivals q _ k ltac:(lia) EN) as [Hbad _].
    destruct Hs as (key & vec & Hst & Hne).
    apply Hbad. eapply arrivals_misfit; eauto. by rewrite length_map.
  - pose proof (Normalize_nonzero q Hnz) as EN.
    destruct (SearchOn_normalized arrivals q _ k ltac:(lia) EN) as [_ Hgood].
    destruct Hgood as (rs & h & E & _); [|eauto].
    eapply arrivals_fit; eauto. intros key vec Hst.
    rewrite length_map. eauto.
Qed.

Lemma Search_failures_witness :
  arrivals_of example.k1 (map map_to_list (shards example.k1)) ∧ 0 < 1
  ∧ nonzero [lit 1 0; lit 0 0]
  ∧ (∃ key vec, stored example.k1 key vec ∧ length vec ≠ length [lit 1 0; lit 0 0])
  ∧ Search example.k1 [lit 1 0; lit 0 0] 1 = Fails ErrDimensionMismatch.
Proof.
  assert (H1 : arrivals_of example.k1 (map map_to_list (shards example.k1)))
    by apply default_arrivals.
  assert (H2 : 0 < 1) by lia.
  assert (H3 : nonzero [lit 1 0; lit 0 0]) by (vm_compute; reflexivity).
  assert (H4 : ∃ key vec, stored example.k1 key vec
                          ∧ length vec ≠ length [lit 1 0; lit 0 0]).
  { exists "k1"%string, [one; zero; zero]. split; [|simpl; lia].
    apply (shardAt_stored example.k1 (getShard "k1")). vm_compute. reflexivity. }
  split; [exact H1|]. split; [exact H2|]. split; [exact H3|]. split; [exact H4|].
  exact (proj1 (proj2 (Search_failures example.k1 _ [lit 1 0; lit 0 0] 1 H1 H2)) H3 H4).
Defined.

(** The claim C4 as it is written fails: a query of non-zero magnitude
    whose length is not that of the stored vectors gets an error. *)
Lemma Search_length_mismatch_fails :
  nonzero [lit 1 0; lit 0 0]
  ∧ Search example.k1 [lit 1 0; lit 0 0] 1 = Fails ErrDimensionMismatch.
Proof. split; vm_compute; reflexivity. Qed.

(** What [Search] returns on a reachable store, for a query of the
    stored dimension: whatever holds of every candidate holds of every
    result. *)
Lemma SearchOn_results (s : Storage)
    (arrivals : list (list (string * list float32))) (q : list float32) (k : Z) :
  reachable s -> arrivals_of s arrivals ->
  nonzero q -> len q = dim s -> 0 < k ->
  ∃ rs nq, SearchOn arrivals q k = Returns rs
      ∧ Normalize q = inl nq
      ∧ Z.of_nat (length rs) = Z.min k (Count s)
      ∧ (∀ P : SearchResult -> Prop,
           (∀ key vec, stored s key vec -> P (candidate nq (key, vec))) ->
           Forall P rs)
      ∧ ((∀ key vec, stored s key vec -> scored (candidate nq (key, vec))) ->
           StronglySorted (fun a b => sle b a) rs).
Proof.
  intros Hr Ha Hnz Hq Hk.
  pose proof (Normalize_nonzero q Hnz) as EN.
  set (nq := map (fun val => div val (Magnitude q)) q) in *.
  assert (Hnq : length nq = length q) by apply length_map.
  destruct (reachable_inv s Hr) as [_ Hinv].
  assert (HF : Forall (Forall (fits nq)) arrivals).
  { eapply arrivals_fit; eauto. intros key vec Hst.
    destruct (Hinv key vec Hst) as [Hl _]. unfold len in *. lia. }
  destruct (SearchOn_normalized arrivals q nq k ltac:(lia) EN) as [_ Hgood].
  destruct (Hgood HF) as (rs & h & E & Em & Hp & Hs).
  destruct (merge_results_spec k (map (candidate nq) (concat arrivals))
              ltac:(lia) []) as (h' & Em' & Hlen & Hh & Hall).
  rewrite Em in Em'. injection Em' as <-.
  assert (Hcand : ∀ P : SearchResult -> Prop,
            (∀ key vec, stored s key vec -> P (candidate nq (key, vec))) ->
            Forall P (map (candidate nq) (concat arrivals))).
  { intros P HP. apply List.Forall_map, Forall_concat.
    apply Forall_forall. intros entries He.
    apply Forall_forall. intros [key vec] Hkv. apply HP.
    apply (arrivals_stored s arrivals key vec Ha). eauto. }
  exists rs, nq. split; [done|]. split; [done|]. split; [|split].
  - rewrite Hp, Hlen by (simpl; lia).
    rewrite (arrivals_Count s arrivals Ha), length_map. simpl. done.
  - intros P HP. eapply Permutation_Forall; [symmetry; exact Hp|].
    apply Hall; [constructor | by apply Hcand].
  - intros HP.
    destruct Hh as [Hh1 Hh2];
      [by intros c x y [? ?] | constructor | by apply Hcand |].
    by apply Hs.
Qed.

(** C2, as amended — For every reachable store, every query of the
    stored dimension whose magnitude is not zero and every k > 0,
    Search succeeds, in whatever order the entries reach the merge, and
    returns exactly min(k, Count) results, each the key of a stored
    vector with its similarity to the query; when every similarity it
    has computed is a number, the similarities never grow along the
    results (equal similarities may follow each other). *)
Theorem Search_length_and_order (s : Storage)
    (arrivals : list (list (string * list float32))) (q : list float32) (k : Z) :
  reachable s -> arrivals_of s arrivals ->
  nonzero q -> len q = dim s -> 0 < k ->
  ∃ rs nq, SearchOn arrivals q k = Returns rs
      ∧ Normalize q = inl nq
      ∧ Z.of_nat (length rs) = Z.min k (Count s)
      ∧ (∀ r, r ∈ rs ->
           ∃ vec, stored s (Key r) vec ∧ Similarity r = dot nq vec)
      ∧ (numeric_scores s q -> descending rs).
Proof.
  intros Hr Ha Hnz Hq Hk.
  destruct (SearchOn_results s arrivals q k Hr Ha Hnz Hq Hk)
    as (rs & nq & E & EN & Hlen & Hall & Hsorted).
  exists rs, nq. split; [done|]. split; [done|]. split; [done|]. split.
  - intros r Hin.
    assert (G : Forall (fun r => ∃ vec, stored s (Key r) vec
                                       ∧ Similarity r = dot nq vec) rs).
    { apply Hall. intros key vec Hst. by exists vec. }
    by eapply Forall_forall in G.
  - intros Hnum.
    assert (HP : ∀ key vec, stored s key vec -> scored (candidate nq (key, vec))).
    { intros key vec Hst. apply (Hnum nq key vec EN Hst). }
    apply descending_sorted; [by apply Hall | by apply Hsorted].
Qed.

Lemma Search_length_and_order_witness :
  reachable example.tied
  ∧ arrivals_of example.tied (map map_to_list (shards example.tied))
  ∧ nonzero [lit 1 0; lit 0 0] ∧ len [lit 1 0; lit 0 0] = dim example.tied
  ∧ 0 < 1
  ∧ ∃ rs nq, Search example.tied [lit 1 0; lit 0 0] 1 = Returns rs
        ∧ Normalize [lit 1 0; lit 0 0] = inl nq
        ∧ Z.of_nat (length rs) = Z.min 1 (Count example.tied)
        ∧ (∀ r, r ∈ rs ->
             ∃ vec, stored example.tied (Key r) vec ∧ Similarity r = dot nq vec)
        ∧ (numeric_scores example.tied [lit 1 0; lit 0 0] -> descending rs).
Proof.
  assert (H1 : reachable example.tied) by (repeat apply reach_exec; apply reach_New).
  assert (H2 : arrivals_of example.tied (map map_to_list (shards example.tied)))
    by apply default_arrivals.
  assert (H3 : nonzero [lit 1 0; lit 0 0]) by (vm_compute; reflexivity).
  assert (H4 : len [lit 1 0; lit 0 0] = dim example.tied) by (vm_compute; reflexivity).
  assert (H5 : 0 < 1) by lia.
  split; [exact H1|]. split; [exact H2|]. split; [exact H3|].
  split; [exact H4|]. split; [exact H5|].
  exact (Search_length_and_order example.tied _ [lit 1 0; lit 0 0] 1 H1 H2 H3 H4 H5).
Defined.

(** The claim C2 as it is written fails: two stored vectors of one
    direction have one similarity, and the results are not strictly
    descending. *)
Lemma Search_ties :
  reachable example.tied
  ∧ nonzero [lit 1 0; lit 0 0] ∧ len [lit 1 0; lit 0 0] = dim example.tied
  ∧ Search example.tied [lit 1 0; lit 0 0] 2
    = Returns [ {| Key := "a"; Similarity := one; Distance := zero |};
                {| Key := "b"; Similarity := one; Distance := zero |} ]
  ∧ ¬ strictly_descending
        [ {| Key := "a"; Similarity := one; Distance := zero |};
          {| Key := "b"; Similarity := one; Distance := zero |} ].
Proof.
  split; [repeat apply reach_exec; apply reach_New|].
  split; [vm_compute; reflexivity|]. split; [vm_compute; reflexivity|].
  split; [vm_compute; reflexivity|].
  intros H. specialize (H 0%nat 1%nat _ _ ltac:(lia) eq_refl eq_refl).
  vm_compute in H. discriminate.
Qed.

(** In whatever order the two entries of that store reach the merge,
    the two results have the similarity 1. *)
Lemma Search_ties_any_order (arrivals : list (list (string * list float32))) :
  arrivals_of example.tied arrivals ->
  ∃ r1 r2, SearchOn arrivals [lit 1 0; lit 0 0] 2 = Returns [r1; r2]
         ∧ Similarity r1 = one ∧ Similarity r2 = one.
Proof.
  intros Ha.
  assert (Hst : ∀ key vec, stored example.tied key vec -> vec = [one; zero]).
  { intros key vec Hs.
    apply (arrivals_stored _ _ key vec (default_arrivals example.tied)) in Hs
      as (entries & He & Hkv).
    assert (G : Forall (Forall (fun kv : string * list float32 => kv.2 = [one; zero]))
                  (map map_to_list (shards example.tied))).
    { vm_compute. repeat constructor. }
    eapply Forall_forall in G; [|exact He].
    eapply Forall_forall in G; [|exact Hkv]. exact G. }
  assert (H1 : reachable example.tied) by (repeat apply reach_exec; apply reach_New).
  assert (H3 : nonzero [lit 1 0; lit 0 0]) by (vm_compute; reflexivity).
  assert (H4 : len [lit 1 0; lit 0 0] = dim example.tied) by (vm_compute; reflexivity).
  assert (H5 : 0 < 2) by lia.
  destruct (SearchOn_results example.tied arrivals [lit 1 0; lit 0 0] 2 H1 Ha H3 H4 H5)
    as (rs & nq & E & EN & Hlen & Hall & _).
  assert (nq = [one; zero]) as ->
    by (vm_compute in EN; injection EN as <-; reflexivity).
  assert (Hone : ∀ r, r ∈ rs -> Similarity r = one).
  { intros r Hr.
    assert (G : Forall (fun r => Similarity r = one) rs).
    { apply Hall. intros key vec Hs. by rewrite (Hst _ _ Hs). }
    by eapply Forall_forall in G. }
  change (Count example.tied) with 2 in Hlen.
  destruct rs as [|r1 [|r2 [|r3 rs]]]; cbn in Hlen; try lia.
  exists r1, r2. split; [done|]. split; apply Hone.
  - apply list_elem_of_here.
  - apply list_elem_of_further, list_elem_of_here.
Qed.

End SearchClaims.

(** ** The codec *)

Section CodecProperties.
Import protocol.

(** *** Itoa and Atoi *)

Lemma byte_val_digit (d : Z) : 0 ≤ d ≤ 9 -> fnv.byte_val (digit d) - 48 = d.
Proof.
  intros Hd. unfold fnv.byte_val, digit.
  rewrite N_ascii_embedding; [lia|].
  assert (Z.to_N (48 + d) < 256)%N; lia.
Qed.

Lemma is_digit_digit (d : Z) : 0 ≤ d ≤ 9 -> is_digit (digit d).
Proof. intros Hd. unfold is_digit. rewrite byte_val_digit; lia. Qed.

Lemma parseDigits_digit (d : Z) (acc : list ascii) (m : Z) :
  0 ≤ d ≤ 9 -> parseDigits (digit d :: acc) m = parseDigits acc (m * 10 + d).
Proof.
  intros Hd. cbn [parseDigits]. rewrite byte_val_digit by done.
  destruct (Z.leb_spec 0 d); [|lia]. destruct (Z.leb_spec d 9); [|lia]. done.
Qed.

Lemma parseDigits_app (ds acc : list ascii) :
  ∀ m, parseDigits (ds ++ acc) m =
         match parseDigits ds m with
         | Some v => parseDigits acc v
         | None => None
         end.
Proof.
  induction ds as [|c ds IH]; intros m; cbn [parseDigits app]; [done|].
  destruct (_ && _); [apply IH | done].
Qed.

(** [formatBits] writes the decimal digits of [n] in front of [acc]. *)
Lemma formatBits_spec (fuel : nat) : ∀ (n : Z) (acc : list ascii),
  (0 < fuel)%nat -> 0 ≤ n < 2 ^ Z.of_nat fuel ->
  ∃ ds, formatBits fuel n acc = ds ++ acc
      ∧ ds ≠ [] ∧ Forall is_digit ds
      ∧ ∀ m, ∃ v, parseDigits ds m = Some v ∧ (m = 0 -> v = n).
Proof.
  induction fuel as [|fuel IH]; intros n acc Hf Hn; [lia|].
  cbn [formatBits].
  assert (Hmod : 0 ≤ n mod 10 ≤ 9) by (pose proof (Z.mod_pos_bound n 10); lia).
  destruct (Z.ltb_spec n 10) as [L|L].
  - exists [digit (n mod 10)]. rewrite Z.mod_small by lia.
    split; [done|]. split; [done|].
    split; [repeat constructor; apply is_digit_digit; lia|].
    intros m. exists (m * 10 + n). split; [|lia].
    rewrite parseDigits_digit by lia. done.
  - assert (Hpow : 2 ^ Z.of_nat (S fuel) = 2 * 2 ^ Z.of_nat fuel).
    { rewrite Nat2Z.inj_succ, Z.pow_succ_r; lia. }
    assert (Hdiv : 0 ≤ n / 10 < 2 ^ Z.of_nat fuel).
    { split; [apply Z.div_pos; lia|].
      apply Z.div_lt_upper_bound; lia. }
    assert (Hfuel : (0 < fuel)%nat).
    { destruct fuel; [|lia]. simpl in Hn. lia. }
    destruct (IH (n / 10) (digit (n mod 10) :: acc) Hfuel Hdiv)
      as (ds & E & Hne & Hd & Hp).
    exists (ds ++ [digit (n mod 10)]). rewrite E, <- app_assoc.
    split; [done|]. split; [by destruct ds|].
    split; [apply Forall_app; split; [done|]; repeat constructor;
            by apply is_digit_digit|].
    intros m. destruct (Hp m) as (v & Ev & Hv).
    exists (v * 10 + n mod 10). rewrite parseDigits_app, Ev.
    rewrite parseDigits_digit by done. split; [done|].
    intros Hm. rewrite (Hv Hm). pose proof (Z.div_mod n 10). lia.
Qed.

Lemma Itoa_spec (n : Z) :
  0 ≤ n ->
  Itoa n ≠ [] ∧ Forall is_digit (Itoa n) ∧ parseDigits (Itoa n) 0 = Some n.
Proof.
  intros Hn. unfold Itoa. destruct (Z.ltb_spec n 0) as [|_]; [lia|].
  destruct (formatBits_spec (S (Z.to_nat (Z.log2 n))) n [])
    as (ds & E & Hne & Hd & Hp).
  - lia.
  - split; [done|]. rewrite Nat2Z.inj_succ, Z2Nat.id by apply Z.log2_nonneg.
    destruct (Z.eq_dec n 0) as [->|]; [done|].
    apply Z.log2_spec. lia.
  - rewrite E, app_nil_r. split; [done|]. split; [done|].
    destruct (Hp 0) as (v & Ev & Hv). by rewrite Ev, Hv.
Qed.

Lemma Atoi_Itoa (n : Z) : 0 ≤ n < 2 ^ 63 -> Atoi (Itoa n) = Some n.
Proof.
  intros Hn. destruct (Itoa_spec n) as (Hne & Hd & Hp); [lia|].
  unfold Atoi. destruct (Itoa n) as [|c ds] eqn:E; [done|].
  apply Forall_cons in Hd as [Hc _].
  assert (Ascii.eqb c "-" = false) as ->.
  { apply Ascii.eqb_neq. intros ->. unfold is_digit in Hc.
    change (fnv.byte_val "-") with 45 in Hc. lia. }
  assert (Ascii.eqb c "+" = false) as ->.
  { apply Ascii.eqb_neq. intros ->. unfold is_digit in Hc.
    change (fnv.byte_val "+") with 43 in Hc. lia. }
  cbn [orb]. rewrite Hp.
  destruct (Z.leb_spec (- 2 ^ 63) n); [|lia].
  destruct (Z.ltb_spec n (2 ^ 63)); [done | lia].
Qed.

Lemma digits_line_text (ds : list ascii) : Forall is_digit ds -> line_text ds.
Proof.
  unfold line_text. intros HF. eapply Forall_impl; [exact HF|].
  intros c Hc ->.
  unfold is_digit in Hc. change (fnv.byte_val LF) with 10 in Hc. lia.
Qed.

(** *** The reader *)

Lemma cut_line (line rest : list ascii) :
  line_text line -> cut LF (line ++ LF :: rest) = Some (line ++ [LF], rest).
Proof.
  induction 1 as [|c line Hc HF IH]; cbn [cut app].
  - done.
  - destruct (Ascii.eqb_spec c LF) as [|_]; [done|]. by rewrite IH.
Qed.

Lemma readLine_spec (r : RESPReader) (line rest : list ascii) :
  input r = line ++ CRLF ++ rest -> line_text line ->
  readLine r = (inl line, {| input := rest; lastByte := Some LF |}).
Proof.
  intros Hin Hl. unfold readLine, bind, ReadString. rewrite Hin.
  change (line ++ CRLF ++ rest) with (line ++ [CR] ++ LF :: rest).
  rewrite app_assoc, cut_line.
  2:{ apply Forall_app. split; [done|]. by repeat constructor. }
  rewrite <- app_assoc. cbn [app].
  assert (El : length (line ++ [CR; LF]) = S (S (length line))).
  { rewrite length_app. simpl. lia. }
  rewrite El. cbn [Nat.ltb Nat.leb orb].
  replace (S (S (length line)) - 2)%nat with (length line) by lia.
  rewrite bool_decide_true.
  2:{ rewrite lookup_app_r by lia. by rewrite Nat.sub_diag. }
  cbn [negb]. unfold ret. rewrite take_app_length.
  rewrite last_app. done.
Qed.

Lemma ReadByte_cons (r : RESPReader) (c : ascii) (rest : list ascii) :
  input r = c :: rest ->
  ReadByte r = (inl c, {| input := rest; lastByte := Some c |}).
Proof. intros Hin. unfold ReadByte. by rewrite Hin. Qed.

Lemma readBulkString_spec (r : RESPReader) (prefix s rest : list ascii) :
  input r = prefix ++ CRLF ++ s ++ CRLF ++ rest ->
  line_text prefix -> Atoi prefix = Some (Z.of_nat (length s)) ->
  readBulkString r = (inl s, {| input := rest; lastByte := Some LF |}).
Proof.
  intros Hin Hp Ha. unfold readBulkString, bind.
  rewrite (readLine_spec r _ _ Hin Hp), Ha.
  destruct (Z.eqb_spec (Z.of_nat (length s)) (-1)) as [|_]; [lia|].
  destruct (Z.ltb_spec (Z.of_nat (length s)) 0) as [|_]; [lia|].
  unfold ReadFull. cbn [input].
  replace (Z.to_nat (Z.of_nat (length s) + 2)) with (length s + 2)%nat by lia.
  replace (Z.to_nat (Z.of_nat (length s) + 1)) with (length s + 1)%nat by lia.
  rewrite Nat2Z.id.
  assert (Hlen : (length s + 2 ≤ length (s ++ CRLF ++ rest))%nat).
  { rewrite !length_app. simpl. lia. }
  destruct (Nat.leb_spec (length s + 2) (length (s ++ CRLF ++ rest))) as [_|]; [|lia].
  assert (Et : take (length s + 2) (s ++ CRLF ++ rest) = s ++ CRLF).
  { rewrite app_assoc. rewrite take_app_length'; [done|].
    rewrite length_app. simpl. lia. }
  assert (Ed : drop (length s + 2) (s ++ CRLF ++ rest) = rest).
  { rewrite app_assoc. rewrite drop_app_length'; [done|].
    rewrite length_app. simpl. lia. }
  rewrite Et, Ed.
  rewrite bool_decide_true.
  2:{ rewrite lookup_app_r by lia. by rewrite Nat.sub_diag. }
  rewrite bool_decide_true.
  2:{ rewrite lookup_app_r by lia.
      by replace (length s + 1 - length s)%nat with 1%nat by lia. }
  cbn [negb orb]. unfold ret. rewrite take_app_length.
  replace (length s + 2)%nat with (S (S (length s))) by lia.
  by rewrite last_app.
Qed.

Lemma readBulkString_null (r : RESPReader) (rest : list ascii) :
  input r = bytes "-1" ++ CRLF ++ rest ->
  readBulkString r = (inl [], {| input := rest; lastByte := Some LF |}).
Proof.
  intros Hin. unfold readBulkString, bind.
  rewrite (readLine_spec r _ _ Hin); [done|].
  repeat constructor; discriminate.
Qed.

Lemma readValue_bulk (r : RESPReader) (s rest : list ascii) :
  input r = bulk s ++ rest -> int_length s ->
  readValue r = (inl s, {| input := rest; lastByte := Some LF |}).
Proof.
  intros Hin Hs. unfold readValue, bind.
  rewrite (ReadByte_cons r "$" (Itoa (Z.of_nat (length s)) ++ CRLF ++ s ++ CRLF ++ rest)).
  2:{ rewrite Hin. unfold bulk. cbn [bytes list_ascii_of_string app].
      by rewrite <- !app_assoc. }
  cbn [Ascii.eqb Bool.eqb].
  destruct (Itoa_spec (Z.of_nat (length s))) as (Hne & Hd & _); [lia|].
  apply (readBulkString_spec _ (Itoa (Z.of_nat (length s)))); auto.
  - by apply digits_line_text.
  - apply Atoi_Itoa. unfold int_length in Hs. lia.
Qed.

Lemma readArray_loop_spec (elements : list (list ascii)) :
  ∀ (pre post : list (list ascii)) (r : RESPReader) (rest : list ascii),
  length post = length elements ->
  input r = concat (map bulk elements) ++ rest ->
  Forall int_length elements ->
  ∃ lb, readArray_loop (length elements) (length pre) (pre ++ post) r
        = (inl (pre ++ elements), {| input := rest; lastByte := lb |}).
Proof.
  induction elements as [|s elements IH]; intros pre post r rest Hp Hin HF.
  - destruct post; [|done]. cbn in *. exists (lastByte r).
    unfold ret. rewrite app_nil_r. destruct r. cbn in *. by rewrite Hin.
  - destruct post as [|p post]; [done|].
    apply Forall_cons in HF as [Hs HF].
    cbn [length readArray_loop]. unfold bind.
    rewrite (readValue_bulk r s (concat (map bulk elements) ++ rest)); [|
      by rewrite Hin; cbn [map concat]; rewrite <- app_assoc | done].
    rewrite insert_app_r_alt by lia. rewrite Nat.sub_diag. cbn [insert list_insert].
    destruct (IH (pre ++ [s]) post
                {| input := concat (map bulk elements) ++ rest; lastByte := Some LF |}
                rest) as (lb & E); [by injection Hp | done | done |].
    rewrite length_app in E. cbn [length] in E.
    replace (length pre + 1)%nat with (S (length pre)) in E by lia.
    rewrite <- !app_assoc in E. cbn [app] in E. eauto.
Qed.

(** *** The writer *)

Lemma WriteBulkString_spec (s : list ascii) (w : RESPWriter) :
  WriteBulkString s w
    = (inl tt, {| pending := pending w ++ bulk s; sent := sent w |}).
Proof.
  unfold WriteBulkString, bind, WriteString, bulk. cbn [pending sent].
  by rewrite <- !app_assoc.
Qed.

Lemma WriteArray_loop_spec (elements : list (list ascii)) : ∀ w : RESPWriter,
  WriteArray_loop elements w
    = (inl tt, {| pending := pending w ++ concat (map bulk elements);
                  sent := sent w |}).
Proof.
  induction elements as [|s elements IH]; intros w; cbn [WriteArray_loop map concat].
  - unfold ret. rewrite app_nil_r. by destruct w.
  - unfold bind. rewrite WriteBulkString_spec, IH. cbn [pending sent].
    by rewrite <- app_assoc.
Qed.

Lemma written_WriteArray (elements : list (list ascii)) :
  written (WriteArray elements) = array elements.
Proof.
  unfold written, WriteArray, bind, WriteString, Flush. cbn [pending sent].
  rewrite WriteArray_loop_spec. cbn [pending sent snd app].
  unfold array. by rewrite <- !app_assoc.
Qed.

Lemma ReadCommand_array (elements : list (list ascii)) (rest : list ascii) :
  int_length elements -> Forall int_length elements ->
  ∃ lb, ReadCommand (NewRESPReader (array elements ++ rest))
        = (inl elements, {| input := rest; lastByte := lb |}).
Proof.
  intros Hn HF. unfold ReadCommand, bind, NewRESPReader, array.
  rewrite (ReadByte_cons _ "*" (Itoa (Z.of_nat (length elements)) ++ CRLF
                               ++ concat (map bulk elements) ++ rest)).
  2:{ cbn [input bytes list_ascii_of_string app]. by rewrite <- !app_assoc. }
  cbn [Ascii.eqb Bool.eqb]. unfold readArray, bind.
  destruct (Itoa_spec (Z.of_nat (length elements))) as (Hne & Hd & _); [lia|].
  rewrite (readLine_spec _ (Itoa (Z.of_nat (length elements)))
             (concat (map bulk elements) ++ rest)); [|done|by apply digits_line_text].
  rewrite Atoi_Itoa by (unfold int_length in Hn; lia).
  destruct (Z.ltb_spec (Z.of_nat (length elements)) 0) as [|_]; [lia|].
  rewrite Nat2Z.id.
  destruct (readArray_loop_spec elements [] (replicate (length elements) [])
              {| input := concat (map bulk elements) ++ rest; lastByte := Some LF |}
              rest) as (lb & E); [by rewrite length_replicate | done | done |].
  cbn [length app] in E. rewrite E. eauto.
Qed.

(** C7 — The codec round trip.  For every sequence of strings, printable
    or not, what WriteArray writes (an array of bulk strings) is read
    back by ReadCommand as exactly that sequence, and the reader has
    consumed all of it. *)
Theorem WriteArray_ReadCommand (elements : list (list ascii)) :
  int_length elements -> Forall int_length elements ->
  (ReadCommand (NewRESPReader (written (WriteArray elements)))).1 = inl elements
  ∧ input (ReadCommand (NewRESPReader (written (WriteArray elements)))).2 = [].
Proof.
  intros Hn HF. rewrite written_WriteArray.
  destruct (ReadCommand_array elements [] Hn HF) as (lb & E).
  rewrite app_nil_r in E. by rewrite E.
Qed.

Lemma WriteArray_ReadCommand_witness :
  int_length [bytes "VSET"; bytes "vec1"; bytes "[0.1, 0.2]"]
  ∧ Forall int_length [bytes "VSET"; bytes "vec1"; bytes "[0.1, 0.2]"]
  ∧ (ReadCommand (NewRESPReader
       (written (WriteArray [bytes "VSET"; bytes "vec1"; bytes "[0.1, 0.2]"])))).1
    = inl [bytes "VSET"; bytes "vec1"; bytes "[0.1, 0.2]"].
Proof.
  assert (H1 : int_length [bytes "VSET"; bytes "vec1"; bytes "[0.1, 0.2]"])
    by (vm_compute; reflexivity).
  assert (H2 : Forall int_length [bytes "VSET"; bytes "vec1"; bytes "[0.1, 0.2]"])
    by (repeat constructor).
  split; [exact H1|]. split; [exact H2|].
  exact (proj1 (WriteArray_ReadCommand _ H1 H2)).
Defined.

(** C9, as amended — A first frame that is a scalar, not an array.  For
    a simple string, an integer or a bulk string (whose length line is
    any line that Atoi reads as the length; the null bulk string too,
    read as the empty string) ReadCommand returns the text of the frame
    as a command of one element; for an error frame it returns the
    failure that carries the text of the line. *)
Theorem ReadCommand_scalar (text rest : list ascii) :
  line_text text ->
  ReadCommand (NewRESPReader (bytes "+" ++ text ++ CRLF ++ rest))
    = (inl [text], {| input := rest; lastByte := Some LF |})
  ∧ ReadCommand (NewRESPReader (bytes ":" ++ text ++ CRLF ++ rest))
    = (inl [text], {| input := rest; lastByte := Some LF |})
  ∧ ReadCommand (NewRESPReader (bytes "-" ++ text ++ CRLF ++ rest))
    = (inr (ErrorsNew text), {| input := rest; lastByte := Some LF |})
  ∧ (∀ prefix s,
       line_text prefix -> Atoi prefix = Some (Z.of_nat (length s)) ->
       ReadCommand (NewRESPReader (bytes "$" ++ prefix ++ CRLF ++ s ++ CRLF ++ rest))
         = (inl [s], {| input := rest; lastByte := Some LF |}))
  ∧ ReadCommand (NewRESPReader (bytes "$-1" ++ CRLF ++ rest))
    = (inl [[]], {| input := rest; lastByte := Some LF |}).
Proof.
  intros Ht.
  assert (G : ∀ (c : ascii) (tail : list ascii),
    ReadCommand (NewRESPReader (c :: tail)) =
      if Ascii.eqb c "*" then
        readArray {| input := tail; lastByte := Some c |}
      else if Ascii.eqb c "+" || Ascii.eqb c "-" || Ascii.eqb c ":" || Ascii.eqb c "$"
      then
        match readValue {| input := c :: tail; lastByte := None |} with
        | (inl val, r') => (inl [val], r')
        | (inr e, r') => (inr e, r')
        end
      else (inr (ErrInvalidProtocol (UnexpectedTypeByte c)),
            {| input := tail; lastByte := Some c |})).
  { intros c tail. unfold ReadCommand, bind, NewRESPReader, ReadByte, UnreadByte.
    cbn [input lastByte]. destruct (Ascii.eqb c "*"); [done|].
    destruct (_ || _); [|done]. cbn [input lastByte]. unfold ret.
    by destruct (readValue _) as [[?|?] ?]. }
  assert (L : ∀ c : ascii,
    readLine {| input := text ++ CRLF ++ rest; lastByte := Some c |}
      = (inl text, {| input := rest; lastByte := Some LF |})).
  { intros c. by apply readLine_spec. }
  split; [|split; [|split; [|split]]].
  - cbn [bytes list_ascii_of_string app]. rewrite G. cbn [Ascii.eqb Bool.eqb orb].
    unfold readValue, bind, ReadByte. cbn [input Ascii.eqb Bool.eqb].
    by rewrite L.
  - cbn [bytes list_ascii_of_string app]. rewrite G. cbn [Ascii.eqb Bool.eqb orb].
    unfold readValue, bind, ReadByte. cbn [input Ascii.eqb Bool.eqb].
    by rewrite L.
  - cbn [bytes list_ascii_of_string app]. rewrite G. cbn [Ascii.eqb Bool.eqb orb].
    unfold readValue, bind, ReadByte. cbn [input Ascii.eqb Bool.eqb].
    by rewrite L.
  - intros prefix s Hp Ha. cbn [bytes list_ascii_of_string app].
    rewrite G. cbn [Ascii.eqb Bool.eqb orb].
    unfold readValue, bind, ReadByte. cbn [input Ascii.eqb Bool.eqb].
    by rewrite (readBulkString_spec _ prefix s rest).
  - cbn [bytes list_ascii_of_string app]. rewrite G. cbn [Ascii.eqb Bool.eqb orb].
    unfold readValue, bind, ReadByte. cbn [input Ascii.eqb Bool.eqb].
    by rewrite (readBulkString_null _ rest).
Qed.

Lemma ReadCommand_scalar_witness :
  line_text (bytes "OK")
  ∧ ReadCommand (NewRESPReader (bytes "+" ++ bytes "OK" ++ CRLF ++ []))
    = (inl [bytes "OK"], {| input := []; lastByte := Some LF |}).
Proof.
  assert (H : line_text (bytes "OK")) by (repeat constructor; discriminate).
  split; [exact H|].
  exact (proj1 (ReadCommand_scalar (bytes "OK") [] H)).
Defined.

(** The claim C9 as it is written fails on an error frame: ReadCommand
    returns a failure, here with the text [ERR unknown command], and no
    command of one element. *)
Lemma ReadCommand_error_frame :
  ReadCommand (NewRESPReader (bytes "-ERR unknown command" ++ CRLF))
    = (inr (ErrorsNew (bytes "ERR unknown command")),
       {| input := []; lastByte := Some LF |}).
Proof. vm_compute. reflexivity. Qed.

End CodecProperties.

(** ** Trimming and splitting *)

Section Strip.
Import protocol.

Variable table : list (list ascii).
Hypothesis table_checked : table_ok table = true.

Lemma hasPrefix_spec (p s : list ascii) :
  hasPrefix p s = true <-> ∃ r, s = p ++ r.
Proof.
  revert s. induction p as [|a p IH]; intros s; cbn [hasPrefix].
  - split; eauto.
  - destruct s as [|b s].
    + split; [done | by intros [r ?]].
    + rewrite andb_true_iff, IH. split.
      * intros [Hab [r ->]]. apply Ascii.eqb_eq in Hab as ->. eauto.
      * intros [r [= -> ->]]. split; [apply Ascii.eqb_refl | eauto].
Qed.

Lemma table_nonempty (p : list ascii) : p ∈ table -> p ≠ [].
Proof.
  intros Hin. unfold table_ok in table_checked.
  apply andb_true_iff in table_checked as [H12 _].
  apply andb_true_iff in H12 as [H1 _].
  rewrite forallb_forall in H1. apply list_elem_of_In in Hin.
  specialize (H1 p Hin). intros ->. discriminate.
Qed.

Lemma table_prefix_free (p p' r r' : list ascii) :
  p ∈ table -> p' ∈ table -> p ++ r = p' ++ r' -> p = p'.
Proof.
  intros Hin Hin' E. unfold table_ok in table_checked.
  apply andb_true_iff in table_checked as [H12 _].
  apply andb_true_iff in H12 as [_ H2].
  rewrite forallb_forall in H2.
  assert (G : ∀ q q' t t', q ∈ table -> q' ∈ table -> q ++ t = q' ++ t' ->
            (length q ≤ length q')%nat -> q = q').
  { intros q q' t t' Hq Hq' Eq Hl.
    apply list_elem_of_In in Hq. specialize (H2 q Hq).
    rewrite forallb_forall in H2. apply list_elem_of_In in Hq'.
    specialize (H2 q' Hq'). apply orb_true_iff in H2 as [H2|H2].
    - exfalso. apply negb_true_iff in H2.
      assert (hasPrefix q q' = true); [|congruence].
      apply hasPrefix_spec. exists (drop (length q) q').
      assert (Et : take (length q) (q ++ t) = take (length q) (q' ++ t'))
        by by rewrite Eq.
      rewrite take_app_length in Et. rewrite take_app_le in Et by done.
      rewrite Et at 1. by rewrite take_drop.
    - by apply bool_decide_eq_true in H2. }
  destruct (Nat.le_ge_cases (length p) (length p')).
  - eapply G; eauto.
  - symmetry. eapply G; eauto.
Qed.

Lemma table_no_comma (p : list ascii) :
  p ∈ table -> Forall (fun c => c ≠ ","%char) p.
Proof.
  intros Hin. unfold table_ok in table_checked.
  apply andb_true_iff in table_checked as [_ H3].
  rewrite forallb_forall in H3. apply list_elem_of_In in Hin.
  specialize (H3 p Hin). rewrite forallb_forall in H3.
  apply Forall_forall. intros c Hc ->.
  apply list_elem_of_In in Hc. specialize (H3 _ Hc). discriminate.
Qed.

Lemma run_no_comma (a : list ascii) :
  run table a -> Forall (fun c => c ≠ ","%char) a.
Proof.
  induction 1 as [|p a Hp Ha IH]; [constructor|].
  apply Forall_app. split; [by apply table_no_comma | done].
Qed.

Lemma run_app (a b : list ascii) : run table a -> run table b -> run table (a ++ b).
Proof.
  induction 1 as [|p a Hp Ha IH]; intros Hb; [done|].
  rewrite <- app_assoc. constructor; auto.
Qed.

Lemma leading_Some (s p : list ascii) :
  leading table s = Some p -> p ∈ table ∧ ∃ r, s = p ++ r.
Proof.
  unfold leading. intros Hf. apply find_some in Hf as [Hin Hp].
  split; [by apply list_elem_of_In | by apply hasPrefix_spec].
Qed.

Lemma leading_run (p r : list ascii) :
  p ∈ table -> leading table (p ++ r) = Some p.
Proof.
  intros Hin. destruct (leading table (p ++ r)) as [p'|] eqn:E.
  - destruct (leading_Some _ _ E) as (Hin' & r' & Er).
    f_equal. symmetry. eapply table_prefix_free; eauto.
  - exfalso. unfold leading in E.
    apply list_elem_of_In in Hin.
    pose proof (find_none _ _ E p Hin) as Hf. cbn beta in Hf.
    assert (hasPrefix p (p ++ r) = true) by (apply hasPrefix_spec; eauto).
    congruence.
Qed.

Lemma leading_None (s p r : list ascii) :
  leading table s = None -> p ∈ table -> s ≠ p ++ r.
Proof.
  intros E Hin ->. by rewrite leading_run in E.
Qed.

(** The rounds of [strip] are enough. *)
Lemma strip_fuel (f1 : nat) : ∀ (f2 : nat) (s : list ascii),
  (length s ≤ f1)%nat -> (length s ≤ f2)%nat ->
  strip table f1 s = strip table f2 s.
Proof.
  induction f1 as [|f1 IH]; intros f2 s H1 H2.
  - destruct s; [|simpl in H1; lia]. destruct f2; [done|].
    cbn [strip]. destruct (leading table []) as [p|] eqn:E; [|done].
    destruct (leading_Some _ _ E) as (Hin & r & Er).
    apply table_nonempty in Hin. by destruct p.
  - destruct f2 as [|f2].
    { destruct s; [|simpl in H2; lia]. cbn [strip].
      destruct (leading table []) as [p|] eqn:E; [|done].
      destruct (leading_Some _ _ E) as (Hin & r & Er).
      apply table_nonempty in Hin. by destruct p. }
    cbn [strip]. destruct (leading table s) as [p|] eqn:E; [|done].
    destruct (leading_Some _ _ E) as (Hin & r & ->).
    pose proof (table_nonempty p Hin) as Hne.
    assert (0 < length p)%nat by (destruct p; [done | simpl; lia]).
    rewrite length_app in H1, H2.
    apply IH; rewrite length_drop, length_app; lia.
Qed.

Lemma trim_unfold (s : list ascii) :
  trim table s = match leading table s with
                 | Some p => trim table (drop (length p) s)
                 | None => s
                 end.
Proof.
  unfold trim. destruct s as [|c s].
  - cbn [length strip]. destruct (leading table []) as [p|] eqn:E; [|done].
    destruct (leading_Some _ _ E) as (Hin & r & Er).
    apply table_nonempty in Hin. by destruct p.
  - cbn [length strip]. destruct (leading table (c :: s)) as [p|] eqn:E; [|done].
    destruct (leading_Some _ _ E) as (Hin & r & Er).
    pose proof (table_nonempty p Hin) as Hne.
    assert (0 < length p)%nat by (destruct p; [done | simpl; lia]).
    assert (length (c :: s) = length (p ++ r)) as El by by rewrite Er.
    rewrite length_app in El. cbn [length] in El.
    apply strip_fuel; rewrite length_drop; cbn [length]; lia.
Qed.

Lemma trim_run (a s : list ascii) :
  run table a -> trim table (a ++ s) = trim table s.
Proof.
  induction 1 as [|p a Hp Ha IH]; [done|].
  rewrite trim_unfold, <- app_assoc, leading_run by done.
  by rewrite drop_app_length.
Qed.

(** What [trim] removes is a run, and what it leaves starts with no
    encoding of the table. *)
Lemma trim_split (s : list ascii) :
  ∃ a, run table a ∧ s = a ++ trim table s
     ∧ leading table (trim table s) = None.
Proof.
  induction s as [s IH] using (induction_ltof1 _ (@length ascii)).
  unfold ltof in IH. rewrite trim_unfold.
  destruct (leading table s) as [p|] eqn:E.
  - destruct (leading_Some _ _ E) as (Hin & r & ->).
    pose proof (table_nonempty p Hin) as Hne.
    rewrite drop_app_length.
    destruct (IH r) as (a & Ha & Er & El).
    { rewrite length_app. destruct p; [done | simpl; lia]. }
    exists (p ++ a). split; [by constructor|]. split; [|done].
    rewrite <- app_assoc. by rewrite <- Er.
  - exists []. split; [constructor | done].
Qed.

Lemma trim_fixed (s : list ascii) :
  leading table s = None -> trim table s = s.
Proof. intros E. by rewrite trim_unfold, E. Qed.

End Strip.

Section TrimSpaceProperties.
Import protocol.

Lemma whiteSpace_ok : table_ok whiteSpace = true.
Proof. vm_compute. reflexivity. Qed.

Lemma whiteSpace_reverse_ok : table_ok (map reverse whiteSpace) = true.
Proof. vm_compute. reflexivity. Qed.

Lemma whiteSpace_heads_apart : heads_apart whiteSpace = true.
Proof. vm_compute. reflexivity. Qed.

Lemma run_reverse (table : list (list ascii)) (a : list ascii) :
  run table a -> run (map reverse table) (reverse a).
Proof.
  induction 1 as [|p a Hp Ha IH]; [constructor|].
  rewrite reverse_app. apply run_app; [done|].
  rewrite <- (app_nil_r (reverse p)). constructor; [|constructor].
  apply list_elem_of_fmap. eauto.
Qed.

Lemma run_unreverse (a : list ascii) :
  run (map reverse whiteSpace) a -> run whiteSpace (reverse a).
Proof.
  intros H. apply run_reverse in H.
  replace (map reverse (map reverse whiteSpace)) with whiteSpace in H; [done|].
  rewrite map_map. symmetry. erewrite map_ext; [apply map_id|].
  intros p. apply reverse_involutive.
Qed.

Lemma TrimLeft_run (a s : list ascii) :
  run whiteSpace a -> TrimLeft (a ++ s) = TrimLeft s.
Proof. apply trim_run, whiteSpace_ok. Qed.

Lemma TrimRight_run (s b : list ascii) :
  run whiteSpace b -> TrimRight (s ++ b) = TrimRight s.
Proof.
  intros Hb. unfold TrimRight. rewrite reverse_app.
  rewrite (trim_run _ whiteSpace_reverse_ok); [done|]. by apply run_reverse.
Qed.

Lemma TrimLeft_split (s : list ascii) :
  ∃ a, run whiteSpace a ∧ s = a ++ TrimLeft s
     ∧ leading whiteSpace (TrimLeft s) = None.
Proof. apply trim_split, whiteSpace_ok. Qed.

Lemma TrimRight_split (s : list ascii) :
  ∃ b, run whiteSpace b ∧ s = TrimRight s ++ b.
Proof.
  destruct (trim_split _ whiteSpace_reverse_ok (reverse s)) as (a & Ha & E & _).
  exists (reverse a). split; [by apply run_unreverse|].
  unfold TrimRight. rewrite <- reverse_app, <- E. by rewrite reverse_involutive.
Qed.

Lemma run_head (b : list ascii) :
  run whiteSpace b -> b ≠ [] ->
  ∃ p c b', p ∈ whiteSpace ∧ head p = Some c ∧ b = c :: b'.
Proof.
  induction 1 as [|p a Hp Ha IH]; intros Hne; [done|].
  pose proof (table_nonempty _ whiteSpace_ok p Hp) as Hp'.
  destruct p as [|c p]; [done|]. exists (c :: p), c, (p ++ a). eauto.
Qed.

(** Whatever starts with no white space still does when white space
    follows it. *)
Lemma leading_None_app (m b : list ascii) :
  m ≠ [] -> leading whiteSpace m = None -> run whiteSpace b ->
  leading whiteSpace (m ++ b) = None.
Proof.
  intros Hm Hl Hb.
  destruct (leading whiteSpace (m ++ b)) as [p|] eqn:E; [exfalso | done].
  destruct (leading_Some _ _ _ E) as (Hin & r & Er).
  destruct (Nat.le_gt_cases (length p) (length m)) as [L|L].
  - apply (leading_None _ whiteSpace_ok m p (drop (length p) m) Hl Hin).
    assert (Et : take (length p) (m ++ b) = take (length p) (p ++ r))
      by by rewrite Er.
    rewrite take_app_length in Et. rewrite take_app_le in Et by done.
    rewrite <- (take_drop (length p) m) at 1. by rewrite Et.
  - assert (Ep : p = m ++ take (length p - length m) b).
    { assert (Et : take (length p) (m ++ b) = take (length p) (p ++ r))
        by by rewrite Er.
      rewrite take_app_length in Et. rewrite take_app_ge in Et by lia.
      done. }
    assert (Hbne : b ≠ []).
    { intros ->. rewrite take_nil, app_nil_r in Ep. subst p. lia. }
    destruct (run_head b Hb Hbne) as (p2 & c & b' & Hin2 & Hc & ->).
    pose proof whiteSpace_heads_apart as HA. unfold heads_apart in HA.
    rewrite forallb_forall in HA. apply list_elem_of_In in Hin2.
    specialize (HA p2 Hin2). rewrite forallb_forall in HA.
    apply list_elem_of_In in Hin. specialize (HA p Hin).
    destruct p2 as [|c2 p2]; [done|]. injection Hc as ->.
    rewrite forallb_forall in HA.
    assert (Hct : In c (tail p)).
    { rewrite Ep. destruct m as [|x m]; [done|]. cbn [tail app].
      apply in_or_app. right.
      destruct (length p - length (x :: m))%nat as [|n] eqn:En; [lia|].
      cbn [take]. by left. }
    specialize (HA c Hct). by rewrite Ascii.eqb_refl in HA.
Qed.

Lemma TrimSpace_run_l (a p : list ascii) :
  run whiteSpace a -> TrimSpace (a ++ p) = TrimSpace p.
Proof. intros Ha. unfold TrimSpace. by rewrite TrimLeft_run. Qed.

Lemma TrimSpace_run_r (p b : list ascii) :
  run whiteSpace b -> TrimSpace (p ++ b) = TrimSpace p.
Proof.
  intros Hb. unfold TrimSpace.
  destruct (TrimLeft_split p) as (a & Ha & Ep & Hl).
  destruct (TrimLeft p) as [|c m] eqn:Em.
  - rewrite app_nil_r in Ep. subst a.
    rewrite <- (app_nil_r (p ++ b)), TrimLeft_run by by apply run_app.
    done.
  - rewrite Ep at 1. rewrite <- app_assoc, TrimLeft_run by done.
    unfold TrimLeft at 1.
    rewrite (trim_fixed _ whiteSpace_ok); [by apply TrimRight_run|].
    by apply leading_None_app.
Qed.

(** *** Split *)

Lemma Split_no_comma (b : list ascii) :
  Forall (fun c => c ≠ ","%char) b -> Split b = [b].
Proof.
  induction 1 as [|c b Hc Hb IH]; cbn [Split]; [done|].
  destruct (Ascii.eqb_spec c ",") as [|_]; [done|]. by rewrite IH.
Qed.

Lemma Split_app_l (a m : list ascii) :
  Forall (fun c => c ≠ ","%char) a ->
  ∃ p ps, Split m = p :: ps ∧ Split (a ++ m) = (a ++ p) :: ps.
Proof.
  intros Ha. assert (Hm : ∃ p ps, Split m = p :: ps).
  { destruct m as [|c m]; cbn [Split]; [eauto|].
    destruct (Ascii.eqb c ","); [eauto|]. destruct (Split m); eauto. }
  destruct Hm as (p & ps & Em). exists p, ps. split; [done|].
  induction Ha as [|c a Hc Ha IH]; cbn [Split app]; [done|].
  destruct (Ascii.eqb_spec c ",") as [|_]; [done|]. by rewrite IH.
Qed.

Lemma Split_app_r (b : list ascii) :
  Forall (fun c => c ≠ ","%char) b -> ∀ m,
  ∃ init p, Split m = init ++ [p] ∧ Split (m ++ b) = init ++ [p ++ b].
Proof.
  intros Hb. induction m as [|c m IH]; cbn [Split app].
  - exists [], []. split; [done|]. by apply Split_no_comma.
  - destruct IH as (init & p & E1 & E2).
    destruct (Ascii.eqb_spec c ",") as [->|_].
    + exists ([] :: init), p. by rewrite E1, E2.
    + rewrite E1, E2. destruct init as [|i init]; cbn [app].
      * by exists [], (c :: p).
      * by exists ((c :: i) :: init), p.
Qed.

(** Trimming before the split changes no trimmed piece. *)
Lemma Split_TrimSpace (x : list ascii) :
  map TrimSpace (Split (TrimSpace x)) = map TrimSpace (Split x).
Proof.
  unfold TrimSpace at 2.
  transitivity (map TrimSpace (Split (TrimLeft x))).
  - destruct (TrimRight_split (TrimLeft x)) as (b & Hb & Eb).
    destruct (Split_app_r b (run_no_comma _ whiteSpace_ok b Hb) (TrimRight (TrimLeft x)))
      as (init & p & E1 & E2).
    rewrite <- Eb in E2. rewrite E1, E2, !map_app. cbn [map].
    by rewrite TrimSpace_run_r.
  - destruct (TrimLeft_split x) as (a & Ha & Ea & _).
    destruct (Split_app_l a (TrimLeft x) (run_no_comma _ whiteSpace_ok a Ha))
      as (p & ps & E1 & E2).
    rewrite <- Ea in E2. rewrite E1, E2. cbn [map].
    by rewrite TrimSpace_run_l.
Qed.

End TrimSpaceProperties.

(** ** FastVectorParser *)

Section ParserClaims.
Import protocol.

Variable ParseFloat32 : list ascii -> option float32.

Lemma bracket_check (t : list ascii) :
  Nat.ltb (length t) 2
  || negb (bool_decide (t !! 0%nat = Some "["%char))
  || negb (bool_decide (t !! (length t - 1)%nat = Some "]"%char))
  = negb (bracketed t).
Proof.
  unfold bracketed. destruct t as [|c [|c' t]].
  - reflexivity.
  - cbn. destruct (bool_decide_reflect (Some c = Some "["%char)) as [E|]; [|done].
    injection E as ->. reflexivity.
  - rewrite last_lookup.
    replace (Init.Nat.pred (length (c :: c' :: t))) with (length (c :: c' :: t) - 1)%nat
      by lia.
    cbn [length Nat.ltb Nat.leb orb head lookup list_lookup].
    by rewrite negb_andb.
Qed.

Lemma interior_slice (t : list ascii) :
  take (length t - 2) (drop 1 t) = interior t.
Proof.
  unfold interior. rewrite removelast_firstn_len.
  destruct t as [|c t]; [done|]. cbn [tail drop length].
  by replace (S (length t) - 2)%nat with (Init.Nat.pred (length t)) by lia.
Qed.

Lemma parse_loop_spec (parts : list (list ascii)) : ∀ result,
  parse_loop ParseFloat32 parts result =
    match parse_all ParseFloat32
            (List.filter (fun p => negb (Nat.eqb (length p) 0))
                         (map TrimSpace parts)) with
    | inl vs => inl (result ++ vs)
    | inr e => inr e
    end.
Proof.
  induction parts as [|part parts IH]; intros result;
    cbn [parse_loop map List.filter parse_all].
  - by rewrite app_nil_r.
  - destruct (TrimSpace part) as [|c p] eqn:E; cbn [length Nat.eqb negb].
    + apply IH.
    + cbn [parse_all]. destruct (ParseFloat32 (c :: p)) as [v|]; [|done].
      rewrite IH. destruct (parse_all _ _); [|done].
      by rewrite <- app_assoc.
Qed.

Lemma FastVectorParser_refines (s : list ascii) :
  FastVectorParser ParseFloat32 s = FastVectorParser_spec ParseFloat32 s.
Proof.
  unfold FastVectorParser, FastVectorParser_spec.
  rewrite bracket_check. destruct (bracketed (TrimSpace s)); cbn [negb]; [|done].
  rewrite interior_slice. unfold pieces.
  rewrite <- (Split_TrimSpace (interior (TrimSpace s))).
  destruct (TrimSpace (interior (TrimSpace s))) as [|c u] eqn:E.
  - reflexivity.
  - rewrite parse_loop_spec. by destruct (parse_all _ _).
Qed.

Lemma parse_all_values (ps : list (list ascii)) :
  Forall (fun p => ParseFloat32 p ≠ None) ps ->
  ∃ vs, parse_all ParseFloat32 ps = inl vs
      ∧ Forall2 (fun p v => ParseFloat32 p = Some v) ps vs.
Proof.
  induction 1 as [|p ps Hp HF (vs & E & H2)]; cbn [parse_all].
  - exists []. by split.
  - destruct (ParseFloat32 p) as [v|] eqn:Ev; [|done].
    exists (v :: vs). rewrite E. split; [done|]. by constructor.
Qed.

Lemma parse_all_first_bad (good rest : list (list ascii)) (bad : list ascii) :
  Forall (fun p => ParseFloat32 p ≠ None) good -> ParseFloat32 bad = None ->
  parse_all ParseFloat32 (good ++ bad :: rest) = inr (ErrElement bad).
Proof.
  intros HF Hb. induction HF as [|p ps Hp HF IH]; cbn [parse_all app].
  - by rewrite Hb.
  - destruct (ParseFloat32 p); [|done]. by rewrite IH.
Qed.

End ParserClaims.

Section ParserTheorem.
Import protocol.

(** C6 — FastVectorParser.  For every input string and whatever strings
    ParseFloat accepts: the parser is the parser of the specification;
    so, with t the input trimmed of the white space around it, the
    parse fails unless t starts with an opening and ends with a closing
    bracket; otherwise what is between the brackets is split on commas,
    every piece is trimmed and the empty pieces are skipped; when every
    piece left is a number the result is their values in order, and the
    first piece that is no number fails the parse with an error that
    names it.  In particular "[]" and "[ ]" give the empty sequence and
    "[0.1,,0.2]" gives two elements. *)
Theorem FastVectorParser_correct (ParseFloat32 : list ascii -> option float32)
    (s : list ascii) :
  FastVectorParser ParseFloat32 s = FastVectorParser_spec ParseFloat32 s
  ∧ (bracketed (TrimSpace s) = false ->
       FastVectorParser ParseFloat32 s = inr ErrBrackets)
  ∧ (bracketed (TrimSpace s) = true ->
       Forall (fun p => ParseFloat32 p ≠ None) (pieces (TrimSpace s)) ->
       ∃ vs, FastVectorParser ParseFloat32 s = inl vs
           ∧ Forall2 (fun p v => ParseFloat32 p = Some v)
                     (pieces (TrimSpace s)) vs)
  ∧ (bracketed (TrimSpace s) = true ->
       ∀ good bad rest, pieces (TrimSpace s) = good ++ bad :: rest ->
       Forall (fun p => ParseFloat32 p ≠ None) good ->
       ParseFloat32 bad = None ->
       FastVectorParser ParseFloat32 s = inr (ErrElement bad))
  ∧ FastVectorParser ParseFloat32 (bytes "[]") = inl []
  ∧ FastVectorParser ParseFloat32 (bytes "[ ]") = inl []
  ∧ FastVectorParser ParseFloat32 (bytes "[0.1,,0.2]")
    = match ParseFloat32 (bytes "0.1"), ParseFloat32 (bytes "0.2") with
      | Some v1, Some v2 => inl [v1; v2]
      | None, _ => inr (ErrElement (bytes "0.1"))
      | Some _, None => inr (ErrElement (bytes "0.2"))
      end.
Proof.
  split; [apply FastVectorParser_refines|].
  rewrite !FastVectorParser_refines. unfold FastVectorParser_spec.
  split; [by intros ->|]. split; [|split; [|split; [|split]]].
  - intros -> HF. by apply parse_all_values.
  - intros -> good bad rest -> HF Hb. by apply parse_all_first_bad.
  - reflexivity.
  - reflexivity.
  - change (pieces (TrimSpace (bytes "[0.1,,0.2]")))
      with [bytes "0.1"; bytes "0.2"].
    change (bracketed (TrimSpace (bytes "[0.1,,0.2]"))) with true.
    cbn [parse_all].
    by destruct (ParseFloat32 (bytes "0.1")), (ParseFloat32 (bytes "0.2")).
Qed.

Lemma FastVectorParser_correct_witness :
  bracketed (TrimSpace (bytes "  [ 1 , 2 ,, 3 ] ")) = true
  ∧ Forall (fun p => example.ParseInteger p ≠ None)
           (pieces (TrimSpace (bytes "  [ 1 , 2 ,, 3 ] ")))
  ∧ ∃ vs, FastVectorParser example.ParseInteger (bytes "  [ 1 , 2 ,, 3 ] ") = inl vs
        ∧ Forall2 (fun p v => example.ParseInteger p = Some v)
                  (pieces (TrimSpace (bytes "  [ 1 , 2 ,, 3 ] "))) vs.
Proof.
  assert (H1 : bracketed (TrimSpace (bytes "  [ 1 , 2 ,, 3 ] ")) = true)
    by (vm_compute; reflexivity).
  assert (H2 : Forall (fun p => example.ParseInteger p ≠ None)
                 (pieces (TrimSpace (bytes "  [ 1 , 2 ,, 3 ] ")))).
  { change (pieces (TrimSpace (bytes "  [ 1 , 2 ,, 3 ] ")))
      with [bytes "1"; bytes "2"; bytes "3"].
    repeat constructor; vm_compute; discriminate. }
  split; [exact H1|]. split; [exact H2|].
  exact (proj1 (proj2 (proj2
    (FastVectorParser_correct example.ParseInteger (bytes "  [ 1 , 2 ,, 3 ] "))))
    H1 H2).
Defined.

End ParserTheorem.

(** ** The tests of the repository, on the model *)

Section RepositoryTests.
Import vector order storage protocol.

(** TestMagnitude, the 3-4-5 triangle. *)
Example test_Magnitude : Magnitude [lit 3 0; lit 4 0] = lit 5 0.
Proof. vm_compute. reflexivity. Qed.

(** TestNormalize, TestDotProduct, TestCosineSimilarity and
    TestEuclideanDistance, where the expected value is exact. *)
Example test_vector :
  Normalize [lit 0 0; lit 0 0; lit 0 0] = inr ErrZeroVector
  ∧ DotProduct [lit 1 0; lit 0 0] [lit 0 0; lit 1 0] = inl zero
  ∧ DotProduct [lit 1 0; lit 0 0] [lit (-1) 0; lit 0 0] = inl (lit (-1) 0)
  ∧ DotProduct [lit 1 0; lit 2 0; lit 3 0] [lit 4 0; lit 5 0; lit 6 0]
    = inl (lit 32 0)
  ∧ DotProduct [lit 1 0; lit 2 0] [lit 1 0; lit 2 0; lit 3 0]
    = inr ErrDimensionMismatch
  ∧ CosineSimilarity [lit 1 0; lit 0 0] [lit (-1) 0; lit 0 0] = inl (lit (-1) 0)
  ∧ CosineSimilarity [lit 0 0; lit 0 0] [lit 1 0; lit 1 0] = inr ErrZeroVector
  ∧ CosineSimilarity [lit 1 0; lit 2 0] [lit 1 0; lit 2 0; lit 3 0]
    = inr ErrDimensionMismatch
  ∧ EuclideanDistance [lit 0 0; lit 0 0] [lit 3 0; lit 4 0] = inl (lit 5 0)
  ∧ EuclideanDistance [lit 1 0; lit 2 0] [lit 1 0; lit 2 0; lit 3 0]
    = inr ErrDimensionMismatch.
Proof. vm_compute. done. Qed.

(** TestTopKHeap: [Push] appends and [Pop] takes the last element. *)
Example test_TopKHeap :
  let a := {| Key := "a"; Similarity := example.tenths 5; Distance := zero |} in
  let b := {| Key := "b"; Similarity := example.tenths 3; Distance := zero |} in
  let c := {| Key := "c"; Similarity := example.tenths 8; Distance := zero |} in
  let h := vector.Push (vector.Push (vector.Push [] a) b) c in
  Len h = 3%nat ∧ vector.Pop h = Some (c, [a; b])
  ∧ Less [b; c] 0 1 = true ∧ Less [b; c] 1 0 = false
  ∧ Swap [a; c] 0 1 = [c; a].
Proof. vm_compute. done. Qed.

(** TestStorageDimensionConsistency *)
Example test_dimension_consistency :
  let s1 := Set_ "key1" [example.tenths 1; example.tenths 2; example.tenths 3] New in
  let s2 := Set_ "key2" [example.tenths 4; example.tenths 5; example.tenths 6] s1.2 in
  let s3 := Set_ "key3" [example.tenths 1; example.tenths 2] s2.2 in
  s1.1 = None ∧ s2.1 = None ∧ s3.1 = Some (ErrSetDimension 3 2).
Proof. vm_compute. done. Qed.

(** TestStorageCount and TestStorageClear *)
Example test_Count_Clear :
  let s2 := exec (OpSet "key2" [example.tenths 4; example.tenths 5; example.tenths 6])
              (exec (OpSet "key1" [example.tenths 1; example.tenths 2; example.tenths 3])
                 New) in
  Count New = 0 ∧ Count s2 = 2 ∧ (Delete "key1" s2).1 = true
  ∧ Count (Delete "key1" s2).2 = 1
  ∧ (Delete "never-existed" s2).1 = false
  ∧ Count (Clear s2) = 0 ∧ Dimension (Clear s2) = 0.
Proof. vm_compute. done. Qed.

(** TestStorageSearch: the two nearest to [1, 0, 0] are vec1 and vec2,
    in that order; with k = 10 all four come back. *)
Example test_Search :
  Key <$> match Search example.four [lit 1 0; lit 0 0; lit 0 0] 2 with
          | Returns rs => rs
          | _ => []
          end = ["vec1"; "vec2"]%string
  ∧ ∃ rs, Search example.four [lit 1 0; lit 0 0; lit 0 0] 10 = Returns rs
        ∧ length rs = 4%nat.
Proof. split; [vm_compute; reflexivity | eexists; split; vm_compute; reflexivity]. Qed.

(** A component that is infinite makes a similarity that is no number:
    the stored vector is [NaN, 0]. *)
Example Search_nan_score :
  Get "n" example.infinite = Some [S754_nan; zero]
  ∧ Search example.infinite [lit 1 0; lit 0 0] 1
    = Returns [ {| Key := "n"; Similarity := S754_nan; Distance := zero |} ].
Proof. split; vm_compute; reflexivity. Qed.

(** TestRESPReader, the commands it accepts. *)
Example test_ReadCommand :
  (ReadCommand (NewRESPReader
     (bytes "*3" ++ CRLF ++ bytes "$4" ++ CRLF ++ bytes "VSET" ++ CRLF
      ++ bytes "$5" ++ CRLF ++ bytes "mykey" ++ CRLF
      ++ bytes "$10" ++ CRLF ++ bytes "[0.1, 0.2]" ++ CRLF))).1
    = inl [bytes "VSET"; bytes "mykey"; bytes "[0.1, 0.2]"]
  ∧ (ReadCommand (NewRESPReader (bytes "+OK" ++ CRLF))).1 = inl [bytes "OK"]
  ∧ (ReadCommand (NewRESPReader (bytes ":1000" ++ CRLF))).1 = inl [bytes "1000"]
  ∧ (ReadCommand (NewRESPReader (bytes "$5" ++ CRLF ++ bytes "hello" ++ CRLF))).1
    = inl [bytes "hello"]
  ∧ (ReadCommand (NewRESPReader (bytes "$-1" ++ CRLF))).1 = inl [[]].
Proof. vm_compute. done. Qed.

(** TestRESPReaderComprehensive, the inputs it refuses. *)
Example test_ReadCommand_errors :
  Forall (fun stream => ∃ e, (ReadCommand (NewRESPReader stream)).1 = inr e)
    [ [];
      bytes "X";
      bytes "*" ++ CRLF;
      bytes "*abc" ++ CRLF;
      bytes "*-5" ++ CRLF;
      bytes "$abc" ++ CRLF;
      bytes "$-5" ++ CRLF;
      bytes "$5" ++ CRLF ++ bytes "shrt" ++ CRLF;
      bytes "$5" ++ CRLF ++ bytes "helloXX";
      bytes "+OK";
      bytes "*1" ++ CRLF ++ bytes "+OK";
      bytes "*1" ++ CRLF ++ bytes "$3" ++ CRLF ++ bytes "ab";
      bytes "*1" ++ CRLF ++ bytes "$3" ++ CRLF ++ bytes "abcXX";
      bytes "*1" ++ CRLF ++ bytes "X";
      bytes "-ERR incomplete";
      bytes "+" ++ [CR];
      bytes "+" ++ [LF];
      bytes "*1" ++ CRLF ].
Proof. repeat constructor; eexists; vm_compute; reflexivity. Qed.

(** TestRESPWriter *)
Example test_Write :
  written (WriteSimpleString (bytes "OK")) = bytes "+OK" ++ CRLF
  ∧ written (WriteError (bytes "unknown command"))
    = bytes "-ERR unknown command" ++ CRLF
  ∧ written (WriteInteger 1000) = bytes ":1000" ++ CRLF
  ∧ written (WriteBulkString (bytes "foobar"))
    = bytes "$6" ++ CRLF ++ bytes "foobar" ++ CRLF
  ∧ written (WriteArray [bytes "foo"; bytes "bar"])
    = bytes "*2" ++ CRLF ++ bytes "$3" ++ CRLF ++ bytes "foo" ++ CRLF
      ++ bytes "$3" ++ CRLF ++ bytes "bar" ++ CRLF.
Proof. vm_compute. done. Qed.

(** TestFastVectorParser, with integers for the numbers. *)
Example test_FastVectorParser :
  FastVectorParser example.ParseInteger (bytes "[1, 2, 3]")
    = inl [lit 1 0; lit 2 0; lit 3 0]
  ∧ FastVectorParser example.ParseInteger (bytes "  [ 1, 2 ] ")
    = inl [lit 1 0; lit 2 0]
  ∧ FastVectorParser example.ParseInteger (bytes "[1,,2]") = inl [lit 1 0; lit 2 0]
  ∧ FastVectorParser example.ParseInteger (bytes "[1,]") = inl [lit 1 0]
  ∧ FastVectorParser example.ParseInteger (bytes "[-5]") = inl [lit (-5) 0]
  ∧ FastVectorParser example.ParseInteger (bytes "1, 2") = inr ErrBrackets
  ∧ FastVectorParser example.ParseInteger (bytes "1, 2]") = inr ErrBrackets
  ∧ FastVectorParser example.ParseInteger (bytes "[1, 2") = inr ErrBrackets
  ∧ FastVectorParser example.ParseInteger (bytes "[abc]")
    = inr (ErrElement (bytes "abc")).
Proof. vm_compute. done. Qed.

End RepositoryTests.
